(** * CS2 demo analyzer: event aggregation and rating engine

    A shallow embedding of [backend/parser.py] (class [CS2DemoParser],
    [quick_parse]), [backend/rating.py] (class
    [PlayerRatingCalculator], [calculate_ratings_from_parser]) and the
    rank names of [config.py] ([get_rank_from_rating]).

    Conventions of the embedding.
    - A pandas DataFrame is a list of typed rows; a column that may be
      absent is a flag of the frame.
    - A pandas float is an [fnum]: an exact rational, or one of the IEEE
      special values +inf, -inf, NaN.  Finite arithmetic is exact (no
      rounding error, no signed zero); the special values follow IEEE.
    - A Python dict is an association list in insertion order.
    - A method of an object is a function of the object's state which
      returns the result together with the state afterwards.
    - The ELO update uses [10 ** x] with a fractional exponent and is
      therefore stated over the real numbers. *)

From Stdlib Require Import String Ascii List Bool Arith ZArith QArith Qround Qminmax.
From Stdlib Require Import Lia Lra Permutation Sorted.
From Stdlib Require Lqa.
From Stdlib Require Import Reals Qreals.
Import ListNotations.

Local Open Scope Z_scope.

(* ================================================================== *)
(** * Floating point values with IEEE special values *)
(* ================================================================== *)

Module Float.

Inductive fnum : Type :=
| Fin (q : Q)
| PInf
| NInf
| NaN.

Definition of_Z (z : Z) : fnum := Fin (inject_Z z).
Definition of_nat (n : nat) : fnum := Fin (inject_Z (Z.of_nat n)).

Definition is_nan (x : fnum) : bool :=
  match x with NaN => true | _ => false end.

(** The values that have a place in the order: all but NaN. *)
Definition not_nan (x : fnum) : Prop := is_nan x = false.

(** Sign of a finite value: [Gt] positive, [Eq] zero, [Lt] negative. *)
Definition qsign (q : Q) : comparison := (q ?= 0)%Q.

(** [x / y] as numpy computes it: division by zero does not raise, it
    gives an infinity, or NaN for [0 / 0]. *)
Definition fdiv (x y : fnum) : fnum :=
  match x, y with
  | NaN, _ | _, NaN => NaN
  | Fin a, Fin b =>
      match qsign b with
      | Eq => match qsign a with Eq => NaN | Gt => PInf | Lt => NInf end
      | _ => Fin (a / b)
      end
  | Fin _, (PInf | NInf) => Fin 0
  | (PInf | NInf), (PInf | NInf) => NaN
  | PInf, Fin b => match qsign b with Lt => NInf | _ => PInf end
  | NInf, Fin b => match qsign b with Lt => PInf | _ => NInf end
  end.

Definition fmul (x y : fnum) : fnum :=
  match x, y with
  | NaN, _ | _, NaN => NaN
  | Fin a, Fin b => Fin (a * b)
  | Fin a, PInf | PInf, Fin a =>
      match qsign a with Eq => NaN | Gt => PInf | Lt => NInf end
  | Fin a, NInf | NInf, Fin a =>
      match qsign a with Eq => NaN | Gt => NInf | Lt => PInf end
  | PInf, PInf | NInf, NInf => PInf
  | PInf, NInf | NInf, PInf => NInf
  end.

Definition fadd (x y : fnum) : fnum :=
  match x, y with
  | NaN, _ | _, NaN => NaN
  | Fin a, Fin b => Fin (a + b)
  | PInf, NInf | NInf, PInf => NaN
  | PInf, _ | _, PInf => PInf
  | NInf, _ | _, NInf => NInf
  end.

(** [Series.fillna(0)]. *)
Definition fillna0 (x : fnum) : fnum :=
  match x with NaN => Fin 0 | _ => x end.

(** [Series.clip(lo, hi)]: NaN stays NaN, infinities are clipped. *)
Definition clip (lo hi : Q) (x : fnum) : fnum :=
  match x with
  | NaN => NaN
  | PInf => Fin hi
  | NInf => Fin lo
  | Fin q => Fin (Qmin hi (Qmax lo q))
  end.

(** Rounding of a rational to the nearest integer, ties to the even
    neighbour ([numpy.rint]). *)
Definition rint (y : Q) : Z :=
  let n := Qfloor y in
  match (y - inject_Z n ?= 1 # 2)%Q with
  | Lt => n
  | Gt => n + 1
  | Eq => if Z.even n then n else n + 1
  end.

(** [Series.round(1)]: one decimal, computed as [rint (10 x) / 10]. *)
Definition round1 (x : fnum) : fnum :=
  match x with
  | Fin q => Fin (inject_Z (rint (q * 10)) / 10)
  | _ => x
  end.

(** Total order on the values that are not NaN:
    -inf < finite < +inf. *)
Definition fcompare (x y : fnum) : comparison :=
  match x, y with
  | Fin a, Fin b => (a ?= b)%Q
  | NInf, NInf | PInf, PInf => Eq
  | NInf, _ | _, PInf => Lt
  | _, _ => Gt
  end.

(** Same value: equal rationals, or the same special value. *)
Definition feq (x y : fnum) : Prop :=
  match x, y with
  | Fin a, Fin b => (a == b)%Q
  | PInf, PInf | NInf, NInf | NaN, NaN => True
  | _, _ => False
  end.

End Float.
Export Float.

(* ================================================================== *)
(** * Tables: ordering, distinct keys, keyed series *)
(* ================================================================== *)

Module Frame.

Section Sort.
Context {A : Type}.
Variable leb : A -> A -> bool.

Fixpoint insert_sorted (x : A) (l : list A) : list A :=
  match l with
  | [] => [x]
  | y :: l' => if leb x y then x :: l else y :: insert_sorted x l'
  end.

(** [sort_values]: ascending, stable. *)
Definition sort_values (l : list A) : list A :=
  fold_right insert_sorted [] l.
End Sort.

Section Keyed.
Context {K : Type}.
Variable eqb : K -> K -> bool.

(** Distinct values in order of first appearance. *)
Fixpoint uniq (l : list K) : list K :=
  match l with
  | [] => []
  | x :: l' => x :: filter (fun y => negb (eqb x y)) (uniq l')
  end.

(** Lookup by label in a keyed series; [None] is a missing label. *)
Fixpoint lookup {V : Type} (k : K) (s : list (K * V)) : option V :=
  match s with
  | [] => None
  | (k', v) :: s' => if eqb k' k then Some v else lookup k s'
  end.

Definition mem (k : K) (ks : list K) : bool :=
  existsb (fun x => eqb x k) ks.

(** Python [d[k] = v] on a dict kept in insertion order. *)
Fixpoint dict_set {V : Type} (k : K) (v : V) (d : list (K * V))
  : list (K * V) :=
  match d with
  | [] => [(k, v)]
  | (k', v') :: d' =>
      if eqb k' k then (k', v) :: d' else (k', v') :: dict_set k v d'
  end.

Variable leb : K -> K -> bool.

(** The non-null keys of a column, row by row. *)
Definition key_column {A : Type} (key : A -> option K) (rows : list A)
  : list K :=
  flat_map (fun r => match key r with Some k => [k] | None => [] end) rows.

(** The rows of one group. *)
Definition group {A : Type} (key : A -> option K) (rows : list A) (k : K)
  : list A :=
  filter (fun r => match key r with Some k' => eqb k' k | None => false end)
         rows.

(** [DataFrame.groupby(key)]: rows with a null key are dropped, the
    group labels come out sorted. *)
Definition group_labels {A : Type} (key : A -> option K) (rows : list A)
  : list K :=
  sort_values leb (uniq (key_column key rows)).

(** [groupby(key).agg(f)]: one aggregated value per group label. *)
Definition groupby {A B : Type} (key : A -> option K) (agg : list A -> B)
  (rows : list A) : list (K * B) :=
  map (fun k => (k, agg (group key rows k))) (group_labels key rows).
End Keyed.

Section DenseRank.
Context {A : Type}.
Variable cmp : A -> A -> comparison.

(** The distinct values of a column in descending order. *)
Fixpoint insert_level (v : A) (levels : list A) : list A :=
  match levels with
  | [] => [v]
  | l :: levels' =>
      match cmp v l with
      | Gt => v :: levels
      | Eq => levels
      | Lt => l :: insert_level v levels'
      end
  end.

Definition levels (column : list A) : list A :=
  fold_right insert_level [] column.

Definition above (v l : A) : bool :=
  match cmp l v with Gt => true | _ => false end.

Definition level_of (v l : A) : bool :=
  match cmp l v with Eq => true | _ => false end.

(** [Series.rank(ascending=False, method='dense')] at a value of the
    column: one more than the number of distinct greater values. *)
Definition dense_rank (column : list A) (v : A) : nat :=
  S (length (filter (above v) (levels column))).
End DenseRank.

(** A sum of an int64 column: every addition wraps around in two's
    complement. *)
Definition wrap64 (z : Z) : Z := (z + 2 ^ 63) mod 2 ^ 64 - 2 ^ 63.

Definition int64_sum (values : list Z) : Z :=
  fold_left (fun total v => wrap64 (total + v)) values 0.

(** The values of a dict of lists, each with its key. *)
Definition entries {K V : Type} (d : list (K * list V)) : list (K * V) :=
  flat_map (fun kv => map (pair (fst kv)) (snd kv)) d.

End Frame.
Export Frame.

(* ================================================================== *)
(** * backend/parser.py *)
(* ================================================================== *)

Module Parser.

(** ** Event tables delivered by the decoder *)

(** A row of the [player_death] table.  [attacker_name] is null for a
    death without a killer, [k_round] is the column ['round'] that
    [_assign_rounds_to_kills] adds. *)
Record KillEvent : Type := {
  k_tick : Z;
  attacker_name : option string;
  user_name : option string;
  assister_name : option string;
  headshot : bool;
  weapon : string;
  k_round : nat
}.

(** The kill table with its optional columns. *)
Record KillFrame : Type := {
  kill_rows : list KillEvent;
  has_round : bool;
  has_assister : bool
}.

Record DamageEvent : Type := {
  d_tick : Z;
  d_attacker_name : option string;
  dmg_health : Z
}.

Record RoundEndEvent : Type := {
  r_tick : Z;
  winner : string
}.

(** A row of the tick table: one position sample of one player. *)
Record TickRow : Type := {
  t_tick : Z;
  t_name : string;
  t_X : Q;
  t_Y : Q;
  t_Z : Q;
  health : Z
}.

(** ** Results and exceptions *)

Inductive outcome (A : Type) : Type :=
| Returned (a : A)
| Raised (msg : string).
Arguments Returned {A} a.
Arguments Raised {A} msg.

(** The external decoder object ([demoparser2.DemoParser]) as far as
    [parse_demo] uses it: each call returns a table with the columns
    the code reads, or raises. *)
Record DemoParser : Type := {
  parse_event_player_death : outcome KillFrame;
  parse_event_player_hurt : outcome (list DamageEvent);
  parse_event_round_end : outcome (list RoundEndEvent);
  parse_ticks : outcome (list TickRow)
}.

(** ** The parser object *)

Record CS2DemoParser : Type := {
  demo_path : string;
  parser : DemoParser;
  df_kills : option KillFrame;
  df_damages : option (list DamageEvent);
  df_rounds : option (list RoundEndEvent);
  df_ticks : option (list TickRow)
}.

Definition init (decoder : DemoParser) (path : string) : CS2DemoParser :=
  {| demo_path := path; parser := decoder;
     df_kills := None; df_damages := None;
     df_rounds := None; df_ticks := None |}.

Definition set_df_kills (v : option KillFrame) (self : CS2DemoParser) :=
  {| demo_path := demo_path self; parser := parser self;
     df_kills := v; df_damages := df_damages self;
     df_rounds := df_rounds self; df_ticks := df_ticks self |}.
Definition set_df_damages (v : option (list DamageEvent)) (self : CS2DemoParser) :=
  {| demo_path := demo_path self; parser := parser self;
     df_kills := df_kills self; df_damages := v;
     df_rounds := df_rounds self; df_ticks := df_ticks self |}.
Definition set_df_rounds (v : option (list RoundEndEvent)) (self : CS2DemoParser) :=
  {| demo_path := demo_path self; parser := parser self;
     df_kills := df_kills self; df_damages := df_damages self;
     df_rounds := v; df_ticks := df_ticks self |}.
Definition set_df_ticks (v : option (list TickRow)) (self : CS2DemoParser) :=
  {| demo_path := demo_path self; parser := parser self;
     df_kills := df_kills self; df_damages := df_damages self;
     df_rounds := df_rounds self; df_ticks := v |}.

(** Methods run in a state-and-exception monad over the object. *)
Definition M (A : Type) : Type := CS2DemoParser -> outcome A * CS2DemoParser.

Definition ret {A : Type} (a : A) : M A := fun self => (Returned a, self).
Definition raise {A : Type} (msg : string) : M A :=
  fun self => (Raised msg, self).
Definition bind {A B : Type} (m : M A) (f : A -> M B) : M B :=
  fun self =>
    match m self with
    | (Returned a, self') => f a self'
    | (Raised e, self') => (Raised e, self')
    end.
Definition get : M CS2DemoParser := fun self => (Returned self, self).
Definition modify (f : CS2DemoParser -> CS2DemoParser) : M unit :=
  fun self => (Returned tt, f self).
(** A call of the decoder: its exception propagates. *)
Definition call {A : Type} (f : DemoParser -> outcome A) : M A :=
  fun self => (f (parser self), self).
(** [try: body  except Exception: handler]. *)
Definition try_except {A : Type} (body : M A) (handler : string -> M A) : M A :=
  fun self =>
    match body self with
    | (Raised e, self') => handler e self'
    | r => r
    end.

Notation "x <- m ;; k" := (bind m (fun x => k))
  (at level 61, m at next level, right associativity).
Notation "m ;;; k" := (bind m (fun _ => k))
  (at level 61, right associativity).

(** ** Round segmentation: [_assign_rounds_to_kills] *)

Record RoundInterval : Type := {
  round : nat;
  start_tick : Z;
  end_tick : Z
}.

Definition tick_leb (a b : RoundEndEvent) : bool := r_tick a <=? r_tick b.

(** One iteration of the loop over the sorted round ends; the state is
    [(round_mapping, current_round)].  [round_mapping[-1]] is read only
    when [current_round <> 1], where the list is not empty. *)
Definition round_step (st : list RoundInterval * nat) (round_end : RoundEndEvent)
  : list RoundInterval * nat :=
  let '(round_mapping, current_round) := st in
  (round_mapping ++
     [ {| round := current_round;
          start_tick :=
            if (current_round =? 1)%nat then r_tick round_end
            else last (map end_tick round_mapping) (r_tick round_end);
          end_tick := r_tick round_end |} ],
   S current_round).

Definition round_mapping (df_rounds : list RoundEndEvent) : list RoundInterval :=
  let round_ends := sort_values tick_leb df_rounds in
  fst (fold_left round_step round_ends ([], 1%nat)).

(** The loop in closed form: the intervals for the sorted end ticks
    [ts], numbered from [i], the first one starting at [prev]. *)
Fixpoint intervals_from (i : nat) (prev : Z) (ts : list Z) : list RoundInterval :=
  match ts with
  | [] => []
  | t :: ts' =>
      {| round := i; start_tick := prev; end_tick := t |}
        :: intervals_from (S i) t ts'
  end.

Definition in_interval (row : RoundInterval) (tick : Z) : bool :=
  (start_tick row <=? tick) && (tick <=? end_tick row).

(** The claim that no tick lies inside two distinct intervals. *)
Definition non_overlapping (round_df : list RoundInterval) : Prop :=
  forall a b tick,
    In a round_df -> In b round_df -> a <> b ->
    ~ (in_interval a tick = true /\ in_interval b tick = true).

Definition find_round (round_df : list RoundInterval) (tick : Z) : nat :=
  match find (fun row => in_interval row tick) round_df with
  | Some row => round row
  | None => 1%nat
  end.

Definition set_round (n : nat) (k : KillEvent) : KillEvent :=
  {| k_tick := k_tick k; attacker_name := attacker_name k;
     user_name := user_name k; assister_name := assister_name k;
     headshot := headshot k; weapon := weapon k; k_round := n |}.

Definition _assign_rounds_to_kills : M unit :=
  self <- get ;;
  match df_kills self, df_rounds self with
  | Some kills, Some rounds =>
      let round_df := round_mapping rounds in
      modify (set_df_kills (Some
        {| kill_rows :=
             map (fun k => set_round (find_round round_df (k_tick k)) k)
                 (kill_rows kills);
           has_round := true;
           has_assister := has_assister kills |}))
  | _, _ => ret tt
  end.

(** ** [parse_demo] *)

Definition parse_demo : M bool :=
  try_except
    (kills <- call parse_event_player_death ;;
     modify (set_df_kills (Some kills)) ;;;
     damages <- call parse_event_player_hurt ;;
     modify (set_df_damages (Some damages)) ;;;
     rounds <- call parse_event_round_end ;;
     modify (set_df_rounds (Some rounds)) ;;;
     ticks <- call parse_ticks ;;
     modify (set_df_ticks (Some ticks)) ;;;
     self <- get ;;
     match df_kills self, df_rounds self with
     | Some _, Some _ => _assign_rounds_to_kills
     | _, _ => ret tt
     end ;;;
     ret true)
    (fun _ => ret false).

(** ** [get_player_statistics] *)

Record PlayerStatLine : Type := {
  player_name : string;
  kills : nat;
  headshots : nat;
  deaths : nat;
  assists : nat;
  total_damage : Z;
  kd_ratio : fnum;
  hs_percentage : fnum;
  adr : fnum
}.

Definition count_true {A : Type} (f : A -> bool) (rows : list A) : nat :=
  length (filter f rows).

(** [groupby('attacker_name').agg({'attacker_name': 'count',
    'headshot': 'sum'})]: pairs [(kills, headshots)]. *)
Definition kills_stats (df : list KillEvent) : list (string * (nat * nat)) :=
  groupby String.eqb String.leb attacker_name
    (fun g => (length g, count_true headshot g)) df.

Definition deaths_stats (df : list KillEvent) : list (string * nat) :=
  groupby String.eqb String.leb user_name (@length KillEvent) df.

Definition assists_stats (df : KillFrame) : list (string * nat) :=
  if has_assister df then
    groupby String.eqb String.leb assister_name (@length KillEvent)
      (filter (fun k => match assister_name k with Some _ => true | None => false end)
              (kill_rows df))
  else [].

(** [groupby('attacker_name')['dmg_health'].sum()]: [dmg_health] is an
    int64 column, and its sums wrap around. *)
Definition damage_stats (df : list DamageEvent) : list (string * Z) :=
  groupby String.eqb String.leb d_attacker_name
    (fun g => int64_sum (map dmg_health g)) df.

(** A cell of the concatenated table after [fillna(0)]. *)
Definition cell {V : Type} (zero : V) (name : string) (s : list (string * V)) : V :=
  match lookup String.eqb name s with
  | Some v => v
  | None => zero
  end.

(** The derived columns of one row. *)
Definition kd_ratio_of (kills deaths : nat) : fnum :=
  if (0 <? deaths)%nat then fdiv (of_nat kills) (of_nat deaths)
  else of_nat kills.

Definition hs_percentage_of (headshots kills : nat) : fnum :=
  fillna0 (fmul (fdiv (of_nat headshots) (of_nat kills)) (Fin 100)).

Definition stat_line (ks : list (string * (nat * nat)))
  (ds as_ : list (string * nat)) (dm : list (string * Z))
  (total_rounds : nat) (name : string) : PlayerStatLine :=
  let k := fst (cell (0%nat, 0%nat) name ks) in
  let h := snd (cell (0%nat, 0%nat) name ks) in
  let d := cell 0%nat name ds in
  let td := cell 0 name dm in
  {| player_name := name;
     kills := k;
     headshots := h;
     deaths := d;
     assists := cell 0%nat name as_;
     total_damage := td;
     kd_ratio := kd_ratio_of k d;
     hs_percentage := hs_percentage_of h k;
     adr := fdiv (of_Z td) (of_nat total_rounds) |}.

(** [len(self.df_rounds) if self.df_rounds is not None else 1]. *)
Definition total_rounds_of (df_rounds : option (list RoundEndEvent)) : nat :=
  match df_rounds with
  | Some rounds => length rounds
  | None => 1%nat
  end.

(** The table for given kill and damage frames.  The index of
    [pd.concat(..., axis=1)] is the union of the four indexes, in order
    of first appearance. *)
Definition player_statistics (kf : KillFrame) (dmg : list DamageEvent)
  (df_rounds : option (list RoundEndEvent)) : list PlayerStatLine :=
  let ks := kills_stats (kill_rows kf) in
  let ds := deaths_stats (kill_rows kf) in
  let as_ := assists_stats kf in
  let dm := damage_stats dmg in
  let index := uniq String.eqb
                 (map fst ks ++ map fst ds ++ map fst as_ ++ map fst dm) in
  map (stat_line ks ds as_ dm (total_rounds_of df_rounds)) index.

Definition get_player_statistics : M (list PlayerStatLine) :=
  self <- get ;;
  match df_kills self, df_damages self with
  | Some kf, Some dmg => ret (player_statistics kf dmg (df_rounds self))
  | _, _ => raise "Demo must be parsed before calculating statistics"
  end.

(** ** [get_multi_kills] *)

Record MultiKill : Type := {
  round_num : nat;
  kill_count : nat;
  mk_tick : Z
}.

Definition pair_eqb (a b : string * nat) : bool :=
  String.eqb (fst a) (fst b) && Nat.eqb (snd a) (snd b).

(** Lexicographic order of the labels [(attacker_name, round)]. *)
Definition pair_leb (a b : string * nat) : bool :=
  match String.compare (fst a) (fst b) with
  | Lt => true
  | Eq => Nat.leb (snd a) (snd b)
  | Gt => false
  end.

Definition player_round (k : KillEvent) : option (string * nat) :=
  match attacker_name k with
  | Some a => Some (a, k_round k)
  | None => None
  end.

(** ['tick': 'min'] over a group. *)
Definition min_tick (g : list KillEvent) : Z :=
  match map k_tick g with
  | [] => 0
  | t :: ts => fold_left Z.min ts t
  end.

(** [groupby(['attacker_name', 'round']).agg({'attacker_name': 'count',
    'tick': 'min'})]: pairs [(kill_count, tick)]. *)
Definition kills_per_round (df : list KillEvent)
  : list ((string * nat) * (nat * Z)) :=
  groupby pair_eqb pair_leb player_round (fun g => (length g, min_tick g)) df.

Definition multi_kill_rounds (df : list KillEvent)
  : list ((string * nat) * (nat * Z)) :=
  filter (fun row => (2 <=? fst (snd row))%nat) (kills_per_round df).

(** The event that the loop stores for a row, with its player. *)
Definition entry_of (row : (string * nat) * (nat * Z)) : string * MultiKill :=
  (fst (fst row),
   {| round_num := snd (fst row); kill_count := fst (snd row);
      mk_tick := snd (snd row) |}).

(** One iteration of the loop that organises the rows by player. *)
Definition multi_kill_step (multi_kills : list (string * list MultiKill))
  (row : (string * nat) * (nat * Z)) : list (string * list MultiKill) :=
  let '((player, rnd), (cnt, tick)) := row in
  let multi_kills :=
    if mem String.eqb player (map fst multi_kills) then multi_kills
    else dict_set String.eqb player [] multi_kills in
  let events := cell [] player multi_kills in
  dict_set String.eqb player
    (events ++ [ {| round_num := rnd; kill_count := cnt; mk_tick := tick |} ])
    multi_kills.

Definition get_multi_kills (self : CS2DemoParser) : list (string * list MultiKill) :=
  match df_kills self with
  | None => []
  | Some kf =>
      if negb (has_round kf) then []
      else fold_left multi_kill_step (multi_kill_rounds (kill_rows kf)) []
  end.

(** ** [get_round_by_round_stats] *)

(** The column [player_name] of the round table.  The outer merge is
    followed by [fillna(0)] on the whole frame, which also fills the
    missing [attacker_name] of a row that has deaths only; the later
    [fillna(user_name)] then finds nothing to fill. *)
Inductive label : Type :=
| Name (s : string)
| FilledZero.

Record RoundStatLine : Type := {
  rs_round : nat;
  rs_player_name : label;
  rs_kills : nat;
  rs_deaths : nat;
  rs_kd_ratio : fnum
}.

Definition round_pair_eqb (a b : nat * string) : bool :=
  Nat.eqb (fst a) (fst b) && String.eqb (snd a) (snd b).

Definition round_pair_leb (a b : nat * string) : bool :=
  match Nat.compare (fst a) (fst b) with
  | Lt => true
  | Eq => String.leb (snd a) (snd b)
  | Gt => false
  end.

Definition round_attacker (k : KillEvent) : option (nat * string) :=
  match attacker_name k with
  | Some a => Some (k_round k, a)
  | None => None
  end.

Definition round_victim (k : KillEvent) : option (nat * string) :=
  match user_name k with
  | Some v => Some (k_round k, v)
  | None => None
  end.

Definition round_kills (df : list KillEvent) : list ((nat * string) * nat) :=
  groupby round_pair_eqb round_pair_leb round_attacker (@length KillEvent) df.

Definition round_deaths (df : list KillEvent) : list ((nat * string) * nat) :=
  groupby round_pair_eqb round_pair_leb round_victim (@length KillEvent) df.

(** Labels: the filled zero sorts before every name. *)
Definition label_leb (a b : label) : bool :=
  match a, b with
  | FilledZero, _ => true
  | Name _, FilledZero => false
  | Name x, Name y => String.leb x y
  end.

Definition round_stat_leb (a b : RoundStatLine) : bool :=
  match Nat.compare (rs_round a) (rs_round b) with
  | Lt => true
  | Eq => label_leb (rs_player_name a) (rs_player_name b)
  | Gt => false
  end.

(** One row of the outer merge on [(round, name)], with the derived
    K/D of the round. *)
Definition round_stat_line (rk rd : list ((nat * string) * nat))
  (key : nat * string) : RoundStatLine :=
  let k := match lookup round_pair_eqb key rk with Some n => n | None => 0%nat end in
  let d := match lookup round_pair_eqb key rd with Some n => n | None => 0%nat end in
  {| rs_round := fst key;
     rs_player_name :=
       if mem round_pair_eqb key (map fst rk) then Name (snd key)
       else FilledZero;
     rs_kills := k;
     rs_deaths := d;
     rs_kd_ratio := kd_ratio_of k d |}.

Definition round_by_round_stats (df : list KillEvent) : list RoundStatLine :=
  let rk := round_kills df in
  let rd := round_deaths df in
  let keys := sort_values round_pair_leb
                (uniq round_pair_eqb (map fst rk ++ map fst rd)) in
  sort_values round_stat_leb (map (round_stat_line rk rd) keys).

Definition get_round_by_round_stats (self : CS2DemoParser) : list RoundStatLine :=
  match df_kills self with
  | None => []
  | Some kf =>
      if negb (has_round kf) then [] else round_by_round_stats (kill_rows kf)
  end.

(** ** [get_positions_for_heatmap] *)

Record Position : Type := {
  x : Q;
  y : Q;
  z : Q
}.

Definition name_is (player_name : string) (n : option string) : bool :=
  match n with
  | Some s => String.eqb s player_name
  | None => false
  end.

Definition tick_distance (row : TickRow) (event_tick : Z) : Z :=
  Z.abs (t_tick row - event_tick).

(** [.abs().idxmin()] followed by [.loc]: the first row of the whole
    tick table at the least distance from the event. *)
Fixpoint closest (event_tick : Z) (best : TickRow) (rows : list TickRow)
  : TickRow :=
  match rows with
  | [] => best
  | row :: rows' =>
      closest event_tick
        (if tick_distance row event_tick <? tick_distance best event_tick
         then row else best)
        rows'
  end.

Definition position_of (row : TickRow) : Position :=
  {| x := t_X row; y := t_Y row; z := t_Z row |}.

Definition get_positions_for_heatmap (self : CS2DemoParser)
  (player_name : string) (event_type : string) : list Position :=
  match df_ticks self, df_kills self with
  | Some (first :: rest), Some kf =>
      match kill_rows kf with
      | [] => []
      | _ =>
          let event_ticks :=
            if String.eqb event_type "kills" then
              Some (map k_tick
                     (filter (fun k => name_is player_name (attacker_name k))
                             (kill_rows kf)))
            else if String.eqb event_type "deaths" then
              Some (map k_tick
                     (filter (fun k => name_is player_name (user_name k))
                             (kill_rows kf)))
            else None in
          match event_ticks with
          | None => []
          | Some ticks =>
              flat_map
                (fun event_tick =>
                   let closest_tick := closest event_tick first rest in
                   if tick_distance closest_tick event_tick <=? 32
                   then [position_of closest_tick] else [])
                ticks
          end
      end
  | _, _ => []
  end.

(** ** The constructor and [quick_parse] *)

(** [CS2DemoParser(demo_path)]: [__init__] calls the decoder's
    constructor [DemoParser(path)], which [open_demo] stands for.  The
    call is not inside any handler: when the constructor raises (a
    file that does not exist, for one), so does [__init__]. *)
Definition construct (open_demo : string -> outcome DemoParser)
  (demo_path : string) : outcome CS2DemoParser :=
  match open_demo demo_path with
  | Returned decoder => Returned (init decoder demo_path)
  | Raised msg => Raised msg
  end.

Definition quick_parse (open_demo : string -> outcome DemoParser)
  (demo_path : string) : outcome (list PlayerStatLine) :=
  match construct open_demo demo_path with
  | Returned parser =>
      fst ((ok <- parse_demo ;;
            if ok : bool then get_player_statistics else ret []) parser)
  | Raised msg => Raised msg
  end.

End Parser.

(* ================================================================== *)
(** * backend/rating.py *)
(* ================================================================== *)

Module Rating.
Import Parser.

(** The calculator object.  [k_factor] holds whatever the caller passes
    as first constructor argument: a number for the ELO update, the
    dict of slider weights in [frontend/app.py]. *)
Record PlayerRatingCalculator (K : Type) : Type := {
  k_factor : K;
  base_rating : R;
  player_ratings : list (string * R)
}.
Arguments k_factor {K} _.
Arguments base_rating {K} _.
Arguments player_ratings {K} _.

Definition init {K : Type} (k_factor : K) (base_rating : R)
  : PlayerRatingCalculator K :=
  {| k_factor := k_factor; base_rating := base_rating; player_ratings := [] |}.

Definition default_k_factor : R := 32%R.
Definition default_base_rating : R := 1500%R.

Definition set_player_ratings {K : Type} (d : list (string * R))
  (self : PlayerRatingCalculator K) : PlayerRatingCalculator K :=
  {| k_factor := k_factor self; base_rating := base_rating self;
     player_ratings := d |}.

(** ** The ELO update *)

(** Over the real numbers: the rounding of the doubles is not
    modelled, nor the [OverflowError] that [10 ** x] raises when
    [rating_b] leads by more than about 123000 points. *)
Definition calculate_expected_score (rating_a rating_b : R) : R :=
  (1 / (1 + Rpower 10 ((rating_b - rating_a) / 400)))%R.

(** The two columns of [player_stats] that [update_ratings] reads, the
    K/D being a finite number. *)
Record RatingInput : Type := {
  ri_player_name : string;
  ri_kd_ratio : R
}.

(** First loop: a new player starts at the base rating. *)
Definition register_player (base : R) (ratings : list (string * R))
  (player : string) : list (string * R) :=
  if mem String.eqb player (map fst ratings) then ratings
  else dict_set String.eqb player base ratings.

Definition sum_values (ratings : list (string * R)) : R :=
  fold_left Rplus (map snd ratings) 0%R.

(** [self.player_ratings[player]]; the key is present after the first
    loop. *)
Definition rating_of (player : string) (ratings : list (string * R)) : R :=
  match lookup String.eqb player ratings with
  | Some r => r
  | None => 0%R
  end.

(** Second loop: one row of the table. *)
Definition update_player (k_factor : R) (ratings : list (string * R))
  (row : RatingInput) : list (string * R) :=
  let player := ri_player_name row in
  let performance_score := Rmin (ri_kd_ratio row / 2) 1 in
  let avg_rating := (sum_values ratings / INR (length ratings))%R in
  let expected_score :=
    calculate_expected_score (rating_of player ratings) avg_rating in
  let rating_change := (k_factor * (performance_score - expected_score))%R in
  dict_set String.eqb player (rating_of player ratings + rating_change)%R ratings.

(** [update_ratings]: the returned dict is a copy of the stored one,
    and the stored one is the state afterwards. *)
Definition update_ratings (self : PlayerRatingCalculator R)
  (player_stats : list RatingInput)
  : list (string * R) * PlayerRatingCalculator R :=
  let registered :=
    fold_left (register_player (base_rating self))
              (map ri_player_name player_stats) (player_ratings self) in
  let updated :=
    fold_left (update_player (k_factor self)) player_stats registered in
  (updated, set_player_ratings updated self).

Definition get_player_rating {K : Type} (self : PlayerRatingCalculator K)
  (player_name : string) : option R :=
  lookup String.eqb player_name (player_ratings self).

(** ** Component scores *)

Definition _calculate_kd_score (kd_ratio : fnum) : fnum :=
  round1 (fmul (fdiv (clip 0 3 kd_ratio) (Fin 3)) (Fin 100)).

Definition _calculate_hs_score (hs_percentage : fnum) : fnum :=
  round1 hs_percentage.

Definition _calculate_adr_score (adr : fnum) : fnum :=
  round1 (fmul (fdiv (clip 0 150 adr) (Fin 150)) (Fin 100)).

Definition band_points (kill_count : nat) : nat :=
  if (5 <=? kill_count)%nat then 50
  else if (kill_count =? 4)%nat then 30
  else if (kill_count =? 3)%nat then 15
  else if (kill_count =? 2)%nat then 5
  else 0.

Definition _calculate_multikill_score (player : string)
  (multikills : list (string * list MultiKill)) : nat :=
  match lookup String.eqb player multikills with
  | Some events =>
      Nat.min (fold_left (fun total mk => total + band_points (kill_count mk))
                         events 0)%nat
              100
  | None => 0%nat
  end.

(** ** The rating report *)

Definition weight_kd : Q := 35 # 100.
Definition weight_hs : Q := 20 # 100.
Definition weight_adr : Q := 30 # 100.
Definition weight_multikill : Q := 15 # 100.

Definition overall_of (kd_score hs_score adr_score multikill_score : fnum)
  : fnum :=
  fadd (fadd (fadd (fmul kd_score (Fin weight_kd))
                   (fmul hs_score (Fin weight_hs)))
             (fmul adr_score (Fin weight_adr)))
       (fmul multikill_score (Fin weight_multikill)).

Record RatedStatLine : Type := {
  stats : PlayerStatLine;
  kd_score : fnum;
  hs_score : fnum;
  adr_score : fnum;
  multikill_score : nat;
  overall_rating : fnum;
  rank : nat
}.

Definition rate (multikills : list (string * list MultiKill))
  (row : PlayerStatLine) : RatedStatLine :=
  let kd := _calculate_kd_score (kd_ratio row) in
  let hs := _calculate_hs_score (hs_percentage row) in
  let ad := _calculate_adr_score (adr row) in
  let mk := _calculate_multikill_score (player_name row) multikills in
  {| stats := row; kd_score := kd; hs_score := hs; adr_score := ad;
     multikill_score := mk;
     overall_rating := overall_of kd hs ad (of_nat mk);
     rank := 0 |}.

Definition set_rank (n : nat) (row : RatedStatLine) : RatedStatLine :=
  {| stats := stats row; kd_score := kd_score row; hs_score := hs_score row;
     adr_score := adr_score row; multikill_score := multikill_score row;
     overall_rating := overall_rating row; rank := n |}.

(** [generate_rating_report]: the rank of a NaN rating is NaN, and
    [astype(int)] raises on it.  The calculator is not touched. *)
Definition generate_rating_report {K : Type} (self : PlayerRatingCalculator K)
  (stats : list PlayerStatLine) (multikills : list (string * list MultiKill))
  : outcome (list RatedStatLine) * PlayerRatingCalculator K :=
  let rated_stats := map (rate multikills) stats in
  let column := map overall_rating rated_stats in
  if existsb is_nan column then
    (Raised "Cannot convert non-finite values (NA or inf) to integer", self)
  else
    (Returned
       (map (fun row => set_rank (dense_rank fcompare column (overall_rating row)) row)
            rated_stats),
     self).

End Rating.

(* ================================================================== *)
(** * Further functions of the backend and of config.py *)
(* ================================================================== *)

Module More.
Import Parser Rating.

(** The row that [_assign_rounds_to_kills] stores for a kill. *)
Definition assign (round_df : list RoundInterval) (k : KillEvent) : KillEvent :=
  set_round (find_round round_df (k_tick k)) k.



(** The number of rows with a value in a column. *)
Definition count_notna {A K : Type} (key : A -> option K) (rows : list A) : nat :=
  count_true (fun r => match key r with Some _ => true | None => false end) rows.

(** The deaths of [player] in round [rnd]. *)
Definition deaths_in_round (player : string) (rnd : nat)
  (rows : list KillEvent) : list KillEvent :=
  filter (fun k => name_is player (user_name k) && (k_round k =? rnd)%nat)
         rows.

(** The kill rows that [get_positions_for_heatmap] selects for a player
    and an event type; none for an unknown event type. *)
Definition events_of (player_name event_type : string)
  (rows : list KillEvent) : list KillEvent :=
  if String.eqb event_type "kills" then
    filter (fun k => name_is player_name (attacker_name k)) rows
  else if String.eqb event_type "deaths" then
    filter (fun k => name_is player_name (user_name k)) rows
  else [].

(** ** [get_weapon_usage_stats] (backend/parser.py) *)

Record WeaponStatLine : Type := {
  ws_player_name : string;
  ws_weapon : string;
  ws_kills : nat;
  ws_headshots : nat;
  ws_hs_percentage : fnum
}.

Definition weapon_pair_eqb (a b : string * string) : bool :=
  String.eqb (fst a) (fst b) && String.eqb (snd a) (snd b).

Definition weapon_pair_leb (a b : string * string) : bool :=
  match String.compare (fst a) (fst b) with
  | Lt => true
  | Eq => String.leb (snd a) (snd b)
  | Gt => false
  end.

Definition attacker_weapon (k : KillEvent) : option (string * string) :=
  match attacker_name k with
  | Some a => Some (a, weapon k)
  | None => None
  end.

(** [groupby(['attacker_name', 'weapon']).agg(count, sum)]: kills and
    headshots of every pair. *)
Definition weapon_stats (rows : list KillEvent)
  : list ((string * string) * (nat * nat)) :=
  groupby weapon_pair_eqb weapon_pair_leb attacker_weapon
          (fun g => (length g, count_true headshot g)) rows.

Definition weapon_stat_line (entry : (string * string) * (nat * nat))
  : WeaponStatLine :=
  {| ws_player_name := fst (fst entry);
     ws_weapon := snd (fst entry);
     ws_kills := fst (snd entry);
     ws_headshots := snd (snd entry);
     ws_hs_percentage := hs_percentage_of (snd (snd entry)) (fst (snd entry)) |}.

(** [sort_values(['player_name', 'kills'], ascending=[True, False])]. *)
Definition weapon_line_leb (a b : WeaponStatLine) : bool :=
  match String.compare (ws_player_name a) (ws_player_name b) with
  | Lt => true
  | Eq => (ws_kills b <=? ws_kills a)%nat
  | Gt => false
  end.

(** [weapon_column] tells whether the kill table has the column
    ['weapon']; without it, and without a kill table, the result is the
    empty table. *)
Definition get_weapon_usage_stats (weapon_column : bool) (self : CS2DemoParser)
  : list WeaponStatLine :=
  match df_kills self with
  | None => []
  | Some kf =>
      if negb weapon_column then []
      else sort_values weapon_line_leb
             (map weapon_stat_line (weapon_stats (kill_rows kf)))
  end.

(** The lines of one player in the weapon table. *)
Definition weapon_lines_of (name : string) (table : list WeaponStatLine)
  : list WeaponStatLine :=
  filter (fun l => String.eqb (ws_player_name l) name) table.

(** The kills of [name] with the weapon [w]. *)
Definition weapon_kills (name w : string) (rows : list KillEvent)
  : list KillEvent :=
  filter (fun k => name_is name (attacker_name k) && String.eqb (weapon k) w)
         rows.

(** ** [calculate_ratings_from_parser] (backend/rating.py) *)




(** ** config.py *)

Definition RANK_THRESHOLDS : list (Z * string) :=
  [(90, "Global Elite"); (80, "Supreme"); (70, "Legendary Eagle");
   (60, "Distinguished Master Guardian"); (50, "Master Guardian");
   (40, "Gold Nova"); (30, "Silver Elite"); (0, "Silver")]%string.

(** The order of the items [(threshold, rank)] as Python orders
    tuples. *)
Definition item_leb (a b : Z * string) : bool :=
  match fst a ?= fst b with
  | Lt => true
  | Eq => String.leb (snd a) (snd b)
  | Gt => false
  end.

(** [sorted(items, reverse=True)]. *)
Definition sorted_reverse (items : list (Z * string)) : list (Z * string) :=
  sort_values (fun a b => item_leb b a) items.

(** [rating >= threshold] on floats: false for NaN. *)
Definition fge (rating : fnum) (threshold : Z) : bool :=
  match rating with
  | NaN => false
  | _ => match fcompare rating (of_Z threshold) with
         | Lt => false
         | _ => true
         end
  end.

Fixpoint first_rank (rating : fnum) (items : list (Z * string)) : string :=
  match items with
  | [] => "Silver"
  | (threshold, name) :: items' =>
      if fge rating threshold then name else first_rank rating items'
  end.

Definition get_rank_from_rating (rating : fnum) : string :=
  first_rank rating (sorted_reverse RANK_THRESHOLDS).

End More.

(* ================================================================== *)
(** * Vocabulary of the statements and sample matches *)
(* ================================================================== *)

Module Claims.
Import Parser Rating.

(** The number of kill rows whose attacker, or victim, is [name]. *)
Definition kills_by (name : string) (rows : list KillEvent) : nat :=
  count_true (fun k => name_is name (attacker_name k)) rows.
Definition deaths_of (name : string) (rows : list KillEvent) : nat :=
  count_true (fun k => name_is name (user_name k)) rows.
Definition headshots_by (name : string) (rows : list KillEvent) : nat :=
  count_true headshot (filter (fun k => name_is name (attacker_name k)) rows).

(** The kills of [player] in round [rnd]. *)
Definition kills_in_round (player : string) (rnd : nat)
  (rows : list KillEvent) : list KillEvent :=
  filter (fun k => name_is player (attacker_name k) && (k_round k =? rnd)%nat)
         rows.

(** The zero-death convention of the K/D ratio. *)
Definition kd_convention (kills deaths : nat) (kd : fnum) : Prop :=
  ((0 < deaths)%nat ->
   kd = Fin (inject_Z (Z.of_nat kills) / inject_Z (Z.of_nat deaths))) /\
  (deaths = 0%nat -> kd = of_nat kills) /\
  (exists q, kd = Fin q /\ (0 <= q)%Q).

(** The last part of the K/D claim as the specification words it: for
    all players the K/D equals the kills exactly when there is no
    death. *)
Definition kd_equals_kills_iff_no_death : Prop :=
  forall (kf : KillFrame) (dmg : list DamageEvent)
         (rounds : option (list RoundEndEvent)) (r : PlayerStatLine),
    In r (player_statistics kf dmg rounds) ->
    (feq (kd_ratio r) (of_nat (kills r)) <-> deaths r = 0%nat).

(** The guarded ADR of the specification:
    [total_damage / max(1, total_rounds)]. *)
Definition guarded_adr (total_damage : Z) (total_rounds : nat) : fnum :=
  Fin (inject_Z total_damage / inject_Z (Z.max 1 (Z.of_nat total_rounds))).

(** ** The weight configuration of the specification *)

Record Weights : Type := {
  w_kd : Q;
  w_hs : Q;
  w_adr : Q;
  w_multikill : Q
}.

Definition weight_sum (w : Weights) : Q :=
  (w_kd w + w_hs w + w_adr w + w_multikill w)%Q.

(** The weights of the specification: used as they are when their sum
    lies within [0.99, 1.01], divided by their sum otherwise. *)
Definition spec_effective_weights (w : Weights) : Weights :=
  if Qle_bool (99 # 100) (weight_sum w) && Qle_bool (weight_sum w) (101 # 100)
  then w
  else {| w_kd := w_kd w / weight_sum w;
          w_hs := w_hs w / weight_sum w;
          w_adr := w_adr w / weight_sum w;
          w_multikill := w_multikill w / weight_sum w |}.

(** The composite of the specification under given weights. *)
Definition weighted_rating (w : Weights) (row : RatedStatLine) : fnum :=
  fadd (fadd (fadd (fmul (kd_score row) (Fin (w_kd w)))
                   (fmul (hs_score row) (Fin (w_hs w))))
             (fmul (adr_score row) (Fin (w_adr w))))
       (fmul (of_nat (multikill_score row)) (Fin (w_multikill w))).

(** The weights that [generate_rating_report] applies. *)
Definition fixed_weights : Weights :=
  {| w_kd := weight_kd; w_hs := weight_hs; w_adr := weight_adr;
     w_multikill := weight_multikill |}.

Definition all_ones : Weights :=
  {| w_kd := 1; w_hs := 1; w_adr := 1; w_multikill := 1 |}.

(** Comparison of two rated lines by their overall rating. *)
Definition rating_cmp (a b : RatedStatLine) : comparison :=
  fcompare (overall_rating a) (overall_rating b).

(** The claim that a second invocation of the rating update on the
    same table returns what the first one returned. *)
Definition repeatable_update : Prop :=
  forall (self : PlayerRatingCalculator R) (table : list RatingInput),
    fst (update_ratings (snd (update_ratings self table)) table) =
    fst (update_ratings self table).

(** A calculator that stores the rating of one player. *)
Definition calculator_of (k base : R) (player : string) (rating : R)
  : PlayerRatingCalculator R :=
  {| k_factor := k; base_rating := base;
     player_ratings := [(player, rating)] |}.

End Claims.

Module Samples.
Import Parser Rating Claims.

Definition round_end (t : Z) : RoundEndEvent := {| r_tick := t; winner := "CT" |}.

Definition kill (t : Z) (attacker victim : string) (hs : bool) : KillEvent :=
  {| k_tick := t; attacker_name := Some attacker; user_name := Some victim;
     assister_name := None; headshot := hs; weapon := "ak47"; k_round := 0 |}.

Definition damage (t : Z) (attacker : string) (amount : Z) : DamageEvent :=
  {| d_tick := t; d_attacker_name := Some attacker; dmg_health := amount |}.

Definition sample (t : Z) (name : string) (px py pz : Q) : TickRow :=
  {| t_tick := t; t_name := name; t_X := px; t_Y := py; t_Z := pz;
     health := 100 |}.

Definition frame (rows : list KillEvent) : KillFrame :=
  {| kill_rows := rows; has_round := false; has_assister := true |}.

(** A decoder that delivers the four given tables. *)
Definition decoder (kills : list KillEvent) (damages : list DamageEvent)
  (rounds : list RoundEndEvent) (ticks : list TickRow) : DemoParser :=
  {| parse_event_player_death := Returned (frame kills);
     parse_event_player_hurt := Returned damages;
     parse_event_round_end := Returned rounds;
     parse_ticks := Returned ticks |}.

(** A decoder constructor that finds every file but ["missing.dem"]. *)
Definition open_existing (path : string) : outcome DemoParser :=
  if String.eqb path "missing.dem"
  then Raised "No such file or directory (os error 2)"
  else Returned (decoder [] [] [] []).

(** The parser object after [parse_demo] on these tables. *)
Definition parsed (kills : list KillEvent) (damages : list DamageEvent)
  (rounds : list RoundEndEvent) (ticks : list TickRow) : CS2DemoParser :=
  snd (parse_demo (Parser.init (decoder kills damages rounds ticks) "match.dem")).

(** The scenario of the specification: three kills of A in two
    rounds, 100 damage. *)
Definition scenario_kills : list KillEvent :=
  [kill 100 "A" "B" true; kill 150 "A" "C" false; kill 3000 "A" "D" false].
Definition scenario_damages : list DamageEvent :=
  [damage 90 "A" 40; damage 140 "A" 60].
Definition scenario_rounds : list RoundEndEvent :=
  [round_end 2000; round_end 4000].

Definition scenario_stats : list PlayerStatLine :=
  player_statistics (frame scenario_kills) scenario_damages
                    (Some scenario_rounds).

(** The line of B, who appears only as a victim. *)
Definition victim_line : PlayerStatLine :=
  {| player_name := "B"; kills := 0; headshots := 0; deaths := 1;
     assists := 0; total_damage := 0; kd_ratio := Fin 0;
     hs_percentage := Fin 0; adr := Fin (0 # 2) |}.

(** A match whose round-end table is present but empty. *)
Definition zero_round_kills : list KillEvent := [kill 100 "A" "B" false].
Definition zero_round_damages : list DamageEvent := [damage 90 "A" 40].
Definition zero_round_rounds : list RoundEndEvent := [].

(** A kill of A on B at tick 100, with a position sample of each of
    the two players at that very tick, B's row first. *)
Definition duel_kills : list KillEvent := [kill 100 "A" "B" false].
Definition duel_ticks : list TickRow :=
  [sample 100 "B" 1 1 1; sample 100 "A" 9 9 9].

(** The samples of one player. *)
Definition samples_of (name : string) (ticks : list TickRow) : list TickRow :=
  filter (fun row => String.eqb (t_name row) name) ticks.

(** The rows of a report, none if it raised. *)
Definition report_rows (report : outcome (list RatedStatLine))
  : list RatedStatLine :=
  match report with
  | Returned rows => rows
  | Raised _ => []
  end.

Definition scenario_multi_kills : list (string * list MultiKill) :=
  get_multi_kills (parsed scenario_kills scenario_damages scenario_rounds []).

Definition scenario_report : list RatedStatLine :=
  report_rows
    (fst (generate_rating_report (Rating.init tt default_base_rating)
                                 scenario_stats scenario_multi_kills)).

(** One stat line with a K/D of 3, no headshots and no damage. *)
Definition lone_fragger : PlayerStatLine :=
  {| player_name := "A"; kills := 3; headshots := 0; deaths := 0;
     assists := 0; total_damage := 0; kd_ratio := Fin 3;
     hs_percentage := Fin 0; adr := Fin 0 |}.

(** The report for this line from a calculator that was constructed
    with the weights 1, 1, 1, 1, as [frontend/app.py] passes its slider
    weights. *)
Definition lone_report : list RatedStatLine :=
  report_rows
    (fst (generate_rating_report (Rating.init all_ones default_base_rating)
                                 [lone_fragger] [])).

(** One row of the rating input: A with a K/D of 2. *)
Definition lone_row : RatingInput :=
  {| ri_player_name := "A"; ri_kd_ratio := 2%R |}.

End Samples.


Module MoreSamples.
Import Parser Rating Claims Samples More.

(** The kill table of the scenario after [parse_demo]. *)
Definition scenario_assigned : list KillEvent :=
  map (assign (round_mapping scenario_rounds)) scenario_kills.

(** The line of A in round 1 of the scenario. *)
Definition round_one_of_A : RoundStatLine :=
  {| rs_round := 1; rs_player_name := Name "A"; rs_kills := 2;
     rs_deaths := 0; rs_kd_ratio := Fin 2 |}.

(** The scenario with one position sample of A, 20 ticks after the
    first kill. *)
Definition scenario_ticks : list TickRow :=
  [sample 120 "A" 5 6 7; sample 9000 "B" 1 1 1].



(** A kills three times and is killed once. *)
Definition traded_kills : list KillEvent :=
  scenario_kills ++ [kill 3500 "B" "A" false].

(** The line of A in this match. *)
Definition traded_line : PlayerStatLine :=
  nth 0 (player_statistics (frame traded_kills) [] None) victim_line.

End MoreSamples.

(* ================================================================== *)
(** * Facts about tables *)
(* ================================================================== *)

Section SortFacts.
Context {A : Type}.
Variable leb : A -> A -> bool.

Lemma insert_sorted_perm (a : A) (l : list A) :
  Permutation (insert_sorted leb a l) (a :: l).
Proof.
  induction l as [|b l IH]; simpl; [reflexivity|].
  destruct (leb a b); [reflexivity|].
  rewrite IH. apply perm_swap.
Qed.

Lemma sort_values_perm (l : list A) : Permutation (sort_values leb l) l.
Proof.
  induction l as [|a l IH]; simpl; [constructor|].
  rewrite insert_sorted_perm. now constructor.
Qed.

Lemma sort_values_length (l : list A) :
  length (sort_values leb l) = length l.
Proof. apply Permutation_length, sort_values_perm. Qed.

Lemma sort_values_In (a : A) (l : list A) :
  In a (sort_values leb l) <-> In a l.
Proof.
  split; apply Permutation_in;
    [apply sort_values_perm | apply Permutation_sym, sort_values_perm].
Qed.

Lemma sort_values_NoDup (l : list A) : NoDup l -> NoDup (sort_values leb l).
Proof.
  apply Permutation_NoDup, Permutation_sym, sort_values_perm.
Qed.

Hypothesis leb_total : forall a b, leb a b = true \/ leb b a = true.
Hypothesis leb_trans :
  forall a b c, leb a b = true -> leb b c = true -> leb a c = true.

Lemma insert_sorted_sorted (a : A) (l : list A) :
  StronglySorted (fun u v => leb u v = true) l ->
  StronglySorted (fun u v => leb u v = true) (insert_sorted leb a l).
Proof.
  induction 1 as [|b l Hs IH Hall]; simpl.
  - repeat constructor.
  - destruct (leb a b) eqn:E.
    + constructor; [now constructor|].
      constructor; [exact E|].
      eapply Forall_impl; [|exact Hall].
      intros c Hc. eapply leb_trans; eassumption.
    + constructor; [exact IH|].
      apply (Permutation_Forall (Permutation_sym (insert_sorted_perm a l))).
      constructor; [|exact Hall].
      destruct (leb_total a b) as [H|H]; [congruence|exact H].
Qed.

Lemma sort_values_sorted (l : list A) :
  StronglySorted (fun u v => leb u v = true) (sort_values leb l).
Proof.
  induction l; simpl; [constructor|]. now apply insert_sorted_sorted.
Qed.
End SortFacts.

Section KeyedFacts.
Context {K : Type}.
Variable eqb : K -> K -> bool.
Hypothesis eqb_spec : forall a b, reflect (a = b) (eqb a b).

Lemma eqb_refl_true (a : K) : eqb a a = true.
Proof. destruct (eqb_spec a a); congruence. Qed.

Lemma uniq_In (k : K) (l : list K) : In k (uniq eqb l) <-> In k l.
Proof.
  induction l as [|a l IH]; simpl; [tauto|].
  rewrite filter_In, IH.
  destruct (eqb_spec a k); simpl; intuition congruence.
Qed.

Lemma uniq_NoDup (l : list K) : NoDup (uniq eqb l).
Proof.
  induction l as [|a l IH]; simpl; constructor.
  - rewrite filter_In. intros [_ H].
    rewrite eqb_refl_true in H. discriminate.
  - now apply NoDup_filter.
Qed.

Lemma mem_In (k : K) (ks : list K) : mem eqb k ks = true <-> In k ks.
Proof.
  unfold mem. rewrite existsb_exists. split.
  - intros (a & Hin & E). destruct (eqb_spec a k); [subst; auto|discriminate].
  - intros H. exists k. split; [exact H|apply eqb_refl_true].
Qed.

Lemma lookup_tabulate {V : Type} (f : K -> V) (k : K) (ks : list K) :
  lookup eqb k (map (fun a => (a, f a)) ks) =
  if mem eqb k ks then Some (f k) else None.
Proof.
  induction ks as [|a ks IH]; simpl; [reflexivity|].
  destruct (eqb_spec a k) as [->|]; simpl; [reflexivity|exact IH].
Qed.

Lemma lookup_None_mem {V : Type} (k : K) (d : list (K * V)) :
  lookup eqb k d = None <-> mem eqb k (map fst d) = false.
Proof.
  induction d as [|[k' v'] d IH]; simpl; [tauto|].
  destruct (eqb k' k); simpl; [split; discriminate|exact IH].
Qed.

Lemma dict_set_absent {V : Type} (k : K) (v : V) (d : list (K * V)) :
  lookup eqb k d = None -> dict_set eqb k v d = d ++ [(k, v)].
Proof.
  induction d as [|[k' v'] d IH]; simpl; [reflexivity|].
  destruct (eqb k' k); [discriminate|].
  intros H. now rewrite IH.
Qed.

Lemma lookup_app_absent {V : Type} (k : K) (v : V) (d : list (K * V)) :
  lookup eqb k d = None -> lookup eqb k (d ++ [(k, v)]) = Some v.
Proof.
  induction d as [|[k' v'] d IH]; simpl.
  - now rewrite eqb_refl_true.
  - destruct (eqb k' k); [discriminate|exact IH].
Qed.

(** Appending an event to the list stored under a key adds exactly
    this event to the entries of the dict. *)
Lemma entries_dict_set {V : Type} (k : K) (e : V) (v : list V)
  (d : list (K * list V)) :
  lookup eqb k d = Some v ->
  Permutation (entries (dict_set eqb k (v ++ [e]) d)) ((k, e) :: entries d).
Proof.
  induction d as [|[k' v'] d IH]; simpl; [discriminate|].
  destruct (eqb_spec k' k) as [->|Hne]; intros H.
  - injection H as ->. unfold entries. simpl.
    rewrite map_app. simpl. rewrite <- app_assoc. simpl.
    apply Permutation_sym, Permutation_middle.
  - unfold entries in *. simpl.
    rewrite (IH H). apply Permutation_sym, Permutation_middle.
Qed.

Lemma key_column_In {A : Type} (key : A -> option K) (rows : list A) (k : K) :
  In k (key_column key rows) <-> exists r, In r rows /\ key r = Some k.
Proof.
  unfold key_column. rewrite in_flat_map. split.
  - intros (r & Hr & Hk). exists r. split; [exact Hr|].
    destruct (key r); simpl in Hk; [|tauto].
    destruct Hk as [->|[]]. reflexivity.
  - intros (r & Hr & Hk). exists r. split; [exact Hr|].
    rewrite Hk. now left.
Qed.

Lemma group_In {A : Type} (key : A -> option K) (rows : list A) (k : K) (r : A) :
  In r (group eqb key rows k) <-> In r rows /\ key r = Some k.
Proof.
  unfold group. rewrite filter_In. split; intros [H1 H2]; split; auto.
  - destruct (key r) as [k'|]; [|discriminate].
    destruct (eqb_spec k' k); congruence.
  - rewrite H2. apply eqb_refl_true.
Qed.

Lemma group_nonempty {A : Type} (key : A -> option K) (rows : list A) (k : K) :
  In k (key_column key rows) -> group eqb key rows k <> [].
Proof.
  rewrite key_column_In. intros (r & Hr & Hk) E.
  assert (H : In r (group eqb key rows k)) by (apply group_In; auto).
  rewrite E in H. exact H.
Qed.

Lemma group_empty {A : Type} (key : A -> option K) (rows : list A) (k : K) :
  ~ In k (key_column key rows) -> group eqb key rows k = [].
Proof.
  intros H. destruct (group eqb key rows k) as [|r g] eqn:E; [reflexivity|].
  exfalso. apply H. apply key_column_In. exists r.
  apply (group_In key rows k r). rewrite E. now left.
Qed.

Variable leb : K -> K -> bool.

Lemma group_labels_In {A : Type} (key : A -> option K) (rows : list A) (k : K) :
  In k (group_labels eqb leb key rows) <-> In k (key_column key rows).
Proof. unfold group_labels. now rewrite sort_values_In, uniq_In. Qed.

Lemma group_labels_NoDup {A : Type} (key : A -> option K) (rows : list A) :
  NoDup (group_labels eqb leb key rows).
Proof. apply sort_values_NoDup, uniq_NoDup. Qed.

(** A group-by series holds the aggregate of every label that occurs,
    and nothing else. *)
Lemma lookup_groupby {A B : Type} (key : A -> option K) (agg : list A -> B)
  (rows : list A) (k : K) :
  lookup eqb k (groupby eqb leb key agg rows) =
  if mem eqb k (key_column key rows)
  then Some (agg (group eqb key rows k)) else None.
Proof.
  unfold groupby.
  rewrite (lookup_tabulate (fun k => agg (group eqb key rows k))).
  destruct (mem eqb k (group_labels eqb leb key rows)) eqn:E1;
    destruct (mem eqb k (key_column key rows)) eqn:E2; try reflexivity.
  - apply mem_In, group_labels_In, mem_In in E1. congruence.
  - apply mem_In, group_labels_In, mem_In in E2. congruence.
Qed.

Lemma groupby_keys {A B : Type} (key : A -> option K) (agg : list A -> B)
  (rows : list A) :
  map fst (groupby eqb leb key agg rows) = group_labels eqb leb key rows.
Proof.
  unfold groupby. rewrite map_map. simpl. apply map_id.
Qed.
End KeyedFacts.

(* ================================================================== *)
(** * Dense ranking over a total preorder *)
(* ================================================================== *)

Section DenseRankFacts.
Context {A : Type}.
Variable cmp : A -> A -> comparison.
(** The values that can be compared (for floats: all but NaN). *)
Variable ordered : A -> Prop.
Hypothesis cmp_antisym :
  forall a b, ordered a -> ordered b -> cmp a b = CompOpp (cmp b a).
Hypothesis cmp_trans :
  forall a b c, ordered a -> ordered b -> ordered c ->
                cmp a b = Gt -> cmp b c = Gt -> cmp a c = Gt.
Hypothesis cmp_eq_l :
  forall a b c, ordered a -> ordered b -> ordered c ->
                cmp a b = Eq -> cmp a c = cmp b c.

Lemma cmp_eq_r (a b c : A) :
  ordered a -> ordered b -> ordered c ->
  cmp a b = Eq -> cmp c a = cmp c b.
Proof.
  intros Ha Hb Hc E.
  rewrite (cmp_antisym c a), (cmp_antisym c b) by assumption.
  f_equal. now apply cmp_eq_l.
Qed.

Lemma cmp_lt_gt (a b : A) :
  ordered a -> ordered b -> cmp a b = Lt -> cmp b a = Gt.
Proof.
  intros Ha Hb E. rewrite (cmp_antisym b a), E by assumption. reflexivity.
Qed.

Lemma cmp_eq_sym (a b : A) :
  ordered a -> ordered b -> cmp a b = Eq -> cmp b a = Eq.
Proof.
  intros Ha Hb E. rewrite (cmp_antisym b a), E by assumption. reflexivity.
Qed.

Lemma insert_level_In (v l : A) (ls : list A) :
  In l (insert_level cmp v ls) -> l = v \/ In l ls.
Proof.
  induction ls as [|l' ls IH]; simpl.
  - intros [<-|[]]. now left.
  - destruct (cmp v l'); simpl; intuition.
Qed.

Lemma levels_In (column : list A) (l : A) :
  In l (levels cmp column) -> In l column.
Proof.
  induction column as [|v column IH]; simpl; [tauto|].
  intros H. apply insert_level_In in H as [->|H]; auto.
Qed.

Lemma levels_ordered (column : list A) :
  Forall ordered column -> Forall ordered (levels cmp column).
Proof.
  rewrite !Forall_forall. intros H l Hl. now apply H, levels_In.
Qed.

Lemma insert_level_keeps (v l : A) (ls : list A) :
  In l ls -> In l (insert_level cmp v ls).
Proof.
  induction ls as [|l' ls IH]; simpl; [tauto|].
  destruct (cmp v l'); simpl; intuition.
Qed.

Lemma insert_level_has (v : A) (ls : list A) :
  ordered v -> Forall ordered ls ->
  exists l, In l (insert_level cmp v ls) /\ cmp l v = Eq.
Proof.
  intros Hv. induction 1 as [|l' ls Hl' Hls IH]; simpl.
  - exists v. split; [now left|].
    pose proof (cmp_antisym v v Hv Hv) as E. destruct (cmp v v); auto; discriminate.
  - destruct (cmp v l') eqn:E.
    + exists l'. split; [now left|]. now apply cmp_eq_sym.
    + destruct IH as (l & Hl & El). exists l. split; [now right|exact El].
    + exists v. split; [now left|].
      pose proof (cmp_antisym v v Hv Hv) as E'.
      destruct (cmp v v); auto; discriminate.
Qed.

(** Every value of the column has its level. *)
Lemma levels_has (column : list A) (v : A) :
  Forall ordered column -> In v column ->
  exists l, In l (levels cmp column) /\ cmp l v = Eq.
Proof.
  induction 1 as [|u column Hu Hc IH]; simpl; [tauto|].
  intros [->|Hv].
  - apply insert_level_has; [exact Hu|now apply levels_ordered].
  - destruct (IH Hv) as (l & Hl & El). exists l.
    split; [now apply insert_level_keeps|exact El].
Qed.

Lemma insert_level_sorted (v : A) (ls : list A) :
  ordered v -> Forall ordered ls ->
  StronglySorted (fun a b => cmp a b = Gt) ls ->
  StronglySorted (fun a b => cmp a b = Gt) (insert_level cmp v ls).
Proof.
  intros Hv Hord Hs. induction Hs as [|l ls Hs IH Hall]; simpl.
  - repeat constructor.
  - inversion_clear Hord as [|? ? Hl Hls].
    destruct (cmp v l) eqn:E.
    + now constructor.
    + constructor; [now apply IH|].
      rewrite Forall_forall. intros x Hx.
      apply insert_level_In in Hx as [->|Hx].
      * now apply cmp_lt_gt.
      * rewrite Forall_forall in Hall. now apply Hall.
    + constructor; [now constructor|].
      constructor; [exact E|].
      rewrite Forall_forall in *. intros x Hx.
      apply (cmp_trans v l x); auto.
Qed.

(** The levels are strictly descending. *)
Lemma levels_sorted (column : list A) :
  Forall ordered column ->
  StronglySorted (fun a b => cmp a b = Gt) (levels cmp column).
Proof.
  induction 1 as [|u column Hu Hc IH]; simpl; [constructor|].
  apply insert_level_sorted; [exact Hu|now apply levels_ordered|exact IH].
Qed.

(** In a strictly descending list a value has at most one level. *)
Lemma one_level (v : A) (ls : list A) :
  ordered v -> Forall ordered ls ->
  StronglySorted (fun a b => cmp a b = Gt) ls ->
  (exists l, In l ls /\ cmp l v = Eq) ->
  length (filter (level_of cmp v) ls) = 1%nat.
Proof.
  intros Hv Hord Hs. induction Hs as [|l ls Hs IH Hall]; simpl.
  - intros (l & [] & _).
  - inversion_clear Hord as [|? ? Hl Hls]. intros (x & Hx & Ex).
    unfold level_of at 1. destruct (cmp l v) eqn:E.
    + simpl. f_equal.
      rewrite (proj2 (length_zero_iff_nil _)); [reflexivity|].
      destruct (filter (level_of cmp v) ls) as [|y ys] eqn:F; [reflexivity|].
      exfalso.
      assert (Hy : In y (filter (level_of cmp v) ls)) by (rewrite F; now left).
      apply filter_In in Hy as [Hy Ey]. unfold level_of in Ey.
      rewrite Forall_forall in Hall, Hls.
      pose proof (Hall y Hy) as Hgt.
      rewrite (cmp_eq_l l v y) in Hgt by auto.
      rewrite (cmp_antisym v y) in Hgt by auto.
      destruct (cmp y v); discriminate.
    + apply IH; [exact Hls|].
      destruct Hx as [->|Hx]; [congruence|]. now exists x.
    + apply IH; [exact Hls|].
      destruct Hx as [->|Hx]; [congruence|]. now exists x.
Qed.

Lemma filter_split_length (f g h : A -> bool) (ls : list A) :
  (forall l, In l ls -> f l = g l || h l) ->
  (forall l, In l ls -> g l && h l = false) ->
  length (filter f ls) =
  (length (filter g ls) + length (filter h ls))%nat.
Proof.
  induction ls as [|l ls IH]; intros Hf Hgh; [reflexivity|].
  assert (IH' : length (filter f ls) =
                (length (filter g ls) + length (filter h ls))%nat)
    by (apply IH; intros; [apply Hf|apply Hgh]; now right).
  simpl. rewrite (Hf l (or_introl eq_refl)).
  pose proof (Hgh l (or_introl eq_refl)) as Hx.
  destruct (g l), (h l); simpl in *; try discriminate; lia.
Qed.

(** The highest value of the column has rank 1. *)
Lemma dense_rank_top (column : list A) (v : A) :
  (forall u, In u column -> cmp u v <> Gt) ->
  dense_rank cmp column v = 1%nat.
Proof.
  intros Hmax. unfold dense_rank. f_equal.
  apply length_zero_iff_nil.
  destruct (filter (above cmp v) (levels cmp column)) as [|l ls] eqn:F;
    [reflexivity|].
  exfalso.
  assert (Hl : In l (filter (above cmp v) (levels cmp column)))
    by (rewrite F; now left).
  apply filter_In in Hl as [Hl El]. unfold above in El.
  apply levels_In in Hl. specialize (Hmax l Hl).
  destruct (cmp l v); congruence.
Qed.

(** Equal values have the same rank. *)
Lemma dense_rank_tie (column : list A) (v v' : A) :
  Forall ordered column -> ordered v -> ordered v' ->
  cmp v v' = Eq ->
  dense_rank cmp column v = dense_rank cmp column v'.
Proof.
  intros Hc Hv Hv' E. unfold dense_rank. do 2 f_equal.
  apply filter_ext_in. intros l Hl. unfold above.
  assert (ordered l)
    by (apply levels_In in Hl; rewrite Forall_forall in Hc; auto).
  now rewrite (cmp_eq_r v v' l).
Qed.

(** The next lower distinct value has the next rank. *)
Lemma dense_rank_next (column : list A) (v v' : A) :
  Forall ordered column -> In v column -> ordered v' ->
  cmp v' v = Lt ->
  (forall u, In u column -> ~ (cmp v' u = Lt /\ cmp u v = Lt)) ->
  dense_rank cmp column v' = S (dense_rank cmp column v).
Proof.
  intros Hc Hv Hv' Hlt Hbetween. unfold dense_rank. f_equal.
  assert (Hov : ordered v) by (rewrite Forall_forall in Hc; auto).
  pose proof (levels_ordered column Hc) as Hlo.
  pose proof (one_level v (levels cmp column) Hov Hlo
                (levels_sorted column Hc) (levels_has column v Hc Hv)) as Hone.
  pose proof (levels_In column) as Hsub.
  enough (Hsplit : length (filter (above cmp v') (levels cmp column)) =
                   (length (filter (above cmp v) (levels cmp column)) +
                    length (filter (level_of cmp v) (levels cmp column)))%nat)
    by lia.
  clear Hone. apply filter_split_length.
  - intros l Hl.
    assert (Hol : ordered l) by (rewrite Forall_forall in Hlo; auto).
    unfold above, level_of. destruct (cmp l v) eqn:E.
    + rewrite (cmp_eq_l l v v') by auto.
      now rewrite (cmp_lt_gt v' v) by auto.
    + destruct (cmp l v') eqn:E'; try reflexivity.
      exfalso. apply (Hbetween l (Hsub l Hl)).
      split; [|exact E].
      rewrite (cmp_antisym v' l), E' by auto. reflexivity.
    + now rewrite (cmp_trans l v v') by (auto using cmp_lt_gt).
  - intros l _. unfold above, level_of. destruct (cmp l v); reflexivity.
Qed.
End DenseRankFacts.

(* ================================================================== *)
(** * The round segmenter *)
(* ================================================================== *)

Module SegmenterFacts.
Import Parser Samples.

Lemma tick_leb_total (a b : RoundEndEvent) :
  tick_leb a b = true \/ tick_leb b a = true.
Proof. unfold tick_leb. lia. Qed.

Lemma tick_leb_trans (a b c : RoundEndEvent) :
  tick_leb a b = true -> tick_leb b c = true -> tick_leb a c = true.
Proof. unfold tick_leb. lia. Qed.

Lemma sorted_ticks (df_rounds : list RoundEndEvent) :
  StronglySorted Z.le (map r_tick (sort_values tick_leb df_rounds)).
Proof.
  pose proof (sort_values_sorted tick_leb tick_leb_total tick_leb_trans df_rounds)
    as H.
  induction H as [|e l Hs IH Hall]; simpl; constructor; [exact IH|].
  rewrite Forall_map. eapply Forall_impl; [|exact Hall].
  intros e' He'. unfold tick_leb in He'. simpl in He'. lia.
Qed.

(** The loop, started after at least one interval, appends the closed
    form. *)
Lemma round_loop (evs : list RoundEndEvent) :
  forall (done : list RoundInterval) (iv : RoundInterval) (c : nat),
    fold_left round_step evs (done ++ [iv], S (S c)) =
    ((done ++ [iv]) ++ intervals_from (S (S c)) (end_tick iv) (map r_tick evs),
     (S (S c) + length evs)%nat).
Proof.
  induction evs as [|e evs IH]; intros done iv c; simpl.
  - rewrite app_nil_r. f_equal. lia.
  - rewrite map_app. simpl map. rewrite last_last.
    rewrite IH. simpl. rewrite <- !app_assoc. simpl.
    f_equal. lia.
Qed.

Lemma round_mapping_closed (df_rounds : list RoundEndEvent) :
  round_mapping df_rounds =
  match map r_tick (sort_values tick_leb df_rounds) with
  | [] => []
  | t :: ts => intervals_from 1 t (t :: ts)
  end.
Proof.
  unfold round_mapping.
  destruct (sort_values tick_leb df_rounds) as [|e evs]; [reflexivity|].
  cbn [map fold_left round_step Nat.eqb app].
  exact (f_equal fst (round_loop evs [] _ 0)).
Qed.

Lemma intervals_from_round (ts : list Z) :
  forall i prev, map round (intervals_from i prev ts) = seq i (length ts).
Proof.
  induction ts as [|t ts IH]; intros i prev; simpl; [reflexivity|].
  now rewrite IH.
Qed.

Lemma intervals_from_nth (ts : list Z) :
  forall i prev n iv,
    nth_error (intervals_from i prev ts) n = Some iv ->
    nth_error ts n = Some (end_tick iv) /\
    start_tick iv = match n with O => prev | S n' => nth n' ts 0 end.
Proof.
  induction ts as [|t ts IH]; intros i prev n iv H.
  - destruct n; discriminate.
  - destruct n as [|n]; simpl in H.
    + injection H as <-. simpl. auto.
    + apply IH in H as [H1 H2]. simpl. split; [exact H1|].
      rewrite H2. destruct n; reflexivity.
Qed.

Lemma sorted_nth_le (ts : list Z) :
  StronglySorted Z.le ts ->
  forall n m a b, (n <= m)%nat ->
    nth_error ts n = Some a -> nth_error ts m = Some b -> a <= b.
Proof.
  induction 1 as [|t ts Hs IH Hall]; intros n m a b Hnm Ha Hb.
  - destruct n; discriminate.
  - destruct n as [|n], m as [|m]; simpl in *; try lia.
    + injection Ha as <-. injection Hb as <-. lia.
    + injection Ha as <-. apply nth_error_In in Hb.
      rewrite Forall_forall in Hall. now apply Hall.
    + eapply IH; [|eassumption|eassumption]. lia.
Qed.

Lemma nth_error_nth_default (ts : list Z) (n : nat) (a : Z) :
  nth_error ts n = Some a -> nth n ts 0 = a.
Proof. intros H. now apply nth_error_nth. Qed.

(** In the segments of sorted end ticks an interval starts where its
    predecessor ends, is not reversed, and ends no later than any later
    interval starts. *)
Lemma segments_sorted (t : Z) (ts : list Z) :
  StronglySorted Z.le (t :: ts) ->
  let rm := intervals_from 1 t (t :: ts) in
  (forall n a b, nth_error rm n = Some a -> nth_error rm (S n) = Some b ->
                 start_tick b = end_tick a) /\
  (forall n a, nth_error rm n = Some a -> start_tick a <= end_tick a) /\
  (forall n m a b, (n < m)%nat ->
                   nth_error rm n = Some a -> nth_error rm m = Some b ->
                   end_tick a <= start_tick b).
Proof.
  intros Hs rm. repeat split.
  - intros n a b Ha Hb.
    apply intervals_from_nth in Ha as [Ha _].
    apply intervals_from_nth in Hb as [_ Hb].
    rewrite Hb. now apply nth_error_nth_default.
  - intros n a Ha.
    apply intervals_from_nth in Ha as [Ha1 Ha2].
    destruct n as [|n].
    + simpl in Ha1. injection Ha1 as Ha1. lia.
    + rewrite Ha2.
      destruct (nth_error (t :: ts) n) as [p|] eqn:Hp.
      * rewrite (nth_error_nth_default _ _ _ Hp).
        apply (sorted_nth_le _ Hs n (S n) p (end_tick a)); auto.
      * apply nth_error_None in Hp.
        assert (nth_error (t :: ts) (S n) <> None) by congruence.
        apply nth_error_Some in H. lia.
  - intros n m a b Hnm Ha Hb.
    apply intervals_from_nth in Ha as [Ha _].
    apply intervals_from_nth in Hb as [Hb1 Hb2].
    destruct m as [|m]; [lia|]. rewrite Hb2.
    destruct (nth_error (t :: ts) m) as [p|] eqn:Hp.
    + rewrite (nth_error_nth_default _ _ _ Hp).
      apply (sorted_nth_le _ Hs n m (end_tick a) p); auto. lia.
    + apply nth_error_None in Hp.
      assert (nth_error (t :: ts) (S m) <> None) by congruence.
      apply nth_error_Some in H. lia.
Qed.

(** C9, as stated, fails: with round ends at ticks 100 and 200 the
    intervals are [100, 100] and [100, 200], and tick 100 lies inside
    both. *)
Lemma boundary_tick_in_two_rounds :
  ~ non_overlapping (round_mapping [round_end 100; round_end 200]).
Proof.
  intros H.
  apply (H {| round := 1; start_tick := 100; end_tick := 100 |}
           {| round := 2; start_tick := 100; end_tick := 200 |} 100).
  - vm_compute. auto.
  - vm_compute. auto.
  - discriminate.
  - split; reflexivity.
Qed.

(** C9 (amended): for every sequence of round-end events the segmenter
    numbers the intervals 1, 2, ..., n without gap; every interval after
    the first starts at the end tick of its predecessor; no interval is
    reversed; and two distinct intervals overlap at a boundary only: a
    tick lying inside both is the end tick of the earlier and the start
    tick of the later one. *)
Theorem round_mapping_contiguous (df_rounds : list RoundEndEvent) :
  let rm := round_mapping df_rounds in
  map round rm = seq 1 (length df_rounds) /\
  (forall n a b, nth_error rm n = Some a -> nth_error rm (S n) = Some b ->
                 start_tick b = end_tick a) /\
  (forall a, In a rm -> start_tick a <= end_tick a) /\
  (forall n m a b tick, (n < m)%nat ->
     nth_error rm n = Some a -> nth_error rm m = Some b ->
     in_interval a tick = true -> in_interval b tick = true ->
     tick = end_tick a /\ tick = start_tick b).
Proof.
  intros rm. subst rm. rewrite round_mapping_closed.
  pose proof (sorted_ticks df_rounds) as Hs.
  pose proof (sort_values_length tick_leb df_rounds) as Hlen.
  rewrite <- (length_map r_tick) in Hlen.
  destruct (map r_tick (sort_values tick_leb df_rounds)) as [|t ts].
  - simpl in Hlen. rewrite <- Hlen. simpl. repeat split.
    + intros n a b H. destruct n; discriminate.
    + intros a [].
    + destruct n; discriminate.
    + destruct n; discriminate.
  - destruct (segments_sorted t ts Hs) as (Hnext & Hle & Hlater).
    split; [|split; [|split]].
    + rewrite intervals_from_round. now rewrite Hlen.
    + exact Hnext.
    + intros a Ha. apply In_nth_error in Ha as [n Ha]. eapply Hle, Ha.
    + intros n m a b tick Hnm Ha Hb Hin_a Hin_b.
      pose proof (Hlater n m a b Hnm Ha Hb).
      unfold in_interval in Hin_a, Hin_b. lia.
Qed.

End SegmenterFacts.

(* ================================================================== *)
(** * The statistics aggregator *)
(* ================================================================== *)

Module StatsFacts.
Import Parser Claims Samples More MoreSamples.

Lemma cell_groupby {A B : Type} (key : A -> option string)
  (agg : list A -> B) (zero : B) (rows : list A) (name : string) :
  agg [] = zero ->
  cell zero name (groupby String.eqb String.leb key agg rows) =
  agg (group String.eqb key rows name).
Proof.
  intros Hz. unfold cell.
  rewrite (lookup_groupby String.eqb String.eqb_spec).
  destruct (mem String.eqb name (key_column key rows)) eqn:E; [reflexivity|].
  rewrite (group_empty String.eqb String.eqb_spec key rows name);
    [now rewrite Hz|].
  intros H. apply (mem_In String.eqb String.eqb_spec) in H. congruence.
Qed.

(** Every row of the table is the stat line of its player, whose
    counts are the counts of the kill table. *)
Lemma stat_line_counts (kf : KillFrame) (dmg : list DamageEvent)
  (rounds : option (list RoundEndEvent)) (r : PlayerStatLine) :
  In r (player_statistics kf dmg rounds) ->
  kills r = kills_by (player_name r) (kill_rows kf) /\
  headshots r = headshots_by (player_name r) (kill_rows kf) /\
  deaths r = deaths_of (player_name r) (kill_rows kf) /\
  kd_ratio r = kd_ratio_of (kills r) (deaths r) /\
  hs_percentage r = hs_percentage_of (headshots r) (kills r) /\
  adr r = fdiv (of_Z (total_damage r)) (of_nat (total_rounds_of rounds)).
Proof.
  unfold player_statistics. rewrite in_map_iff.
  intros (name & <- & _). unfold stat_line; simpl.
  unfold kills_stats, deaths_stats.
  rewrite (cell_groupby attacker_name _ (0%nat, 0%nat)) by reflexivity.
  rewrite (cell_groupby user_name _ 0%nat) by reflexivity.
  simpl. repeat split; reflexivity.
Qed.

Lemma qsign_of_nat_pos (n : nat) :
  (0 < n)%nat -> qsign (inject_Z (Z.of_nat n)) = Gt.
Proof.
  intros H. unfold qsign, Qcompare. simpl. rewrite Z.mul_1_r.
  apply Z.compare_gt_iff. lia.
Qed.

Lemma qsign_of_nat_zero : qsign (inject_Z (Z.of_nat 0)) = Eq.
Proof. reflexivity. Qed.

Lemma inject_nat_nonneg (n : nat) : (0 <= inject_Z (Z.of_nat n))%Q.
Proof. unfold Qle. simpl. lia. Qed.

Lemma kd_ratio_of_convention (k d : nat) : kd_convention k d (kd_ratio_of k d).
Proof.
  unfold kd_convention, kd_ratio_of. repeat split.
  - intros Hd. apply Nat.ltb_lt in Hd as Hd'. rewrite Hd'.
    unfold fdiv, of_nat. now rewrite qsign_of_nat_pos.
  - intros ->. reflexivity.
  - destruct (0 <? d)%nat eqn:Hd.
    + apply Nat.ltb_lt in Hd. unfold fdiv, of_nat.
      rewrite qsign_of_nat_pos by exact Hd.
      eexists. split; [reflexivity|].
      apply Qle_shift_div_l.
      * unfold Qlt. simpl. lia.
      * rewrite Qmult_0_l. apply inject_nat_nonneg.
    + eexists. split; [reflexivity|]. apply inject_nat_nonneg.
Qed.

Lemma round_stat_line_kd (df : list KillEvent) (r : RoundStatLine) :
  In r (round_by_round_stats df) ->
  rs_kd_ratio r = kd_ratio_of (rs_kills r) (rs_deaths r).
Proof.
  unfold round_by_round_stats. rewrite sort_values_In, in_map_iff.
  intros (key & <- & _). reflexivity.
Qed.

(** The K/D equals the kills with no death, with one death, and with
    no kill, and in no other case. *)
Lemma kd_ratio_of_equals_kills (k d : nat) :
  feq (kd_ratio_of k d) (of_nat k) <-> (d <= 1)%nat \/ k = 0%nat.
Proof.
  unfold kd_ratio_of. destruct d as [|d].
  - cbn [Nat.ltb Nat.leb]. unfold of_nat, feq.
    split; [intros _; left; lia|intros _; apply Qeq_refl].
  - replace (0 <? S d)%nat with true by (symmetry; apply Nat.ltb_lt; lia).
    unfold fdiv, of_nat. rewrite qsign_of_nat_pos by lia. unfold feq.
    assert (Hd : ~ inject_Z (Z.of_nat (S d)) == 0)
      by (unfold Qeq; simpl; lia).
    split.
    + intros E.
      assert (E' : inject_Z (Z.of_nat k) ==
                   inject_Z (Z.of_nat k) * inject_Z (Z.of_nat (S d))).
      { rewrite <- E at 2. rewrite Qmult_comm. symmetry.
        now apply Qmult_div_r. }
      rewrite <- inject_Z_mult in E'. rewrite inject_Z_injective in E'.
      destruct k as [|k]; [now right|left].
      assert (E1 : Z.of_nat (S d) = 1%Z)
        by (apply (Z.mul_reg_l _ _ (Z.of_nat (S k))); lia).
      lia.
    + intros H.
      assert (E' : Z.of_nat k = (Z.of_nat k * Z.of_nat (S d))%Z).
      { destruct H as [H| ->]; [|reflexivity].
        replace d with 0%nat by lia. change (Z.of_nat 1) with 1%Z. ring. }
      rewrite E' at 1. rewrite inject_Z_mult.
      now apply Qdiv_mult_l.
Qed.

(** C5, as stated, fails: a player with three kills and one death has
    the K/D 3 / 1, which equals the kills although there is a death. *)
Lemma kd_equals_kills_with_a_death : ~ kd_equals_kills_iff_no_death.
Proof.
  intros H.
  assert (Hin : In traded_line
                   (player_statistics (frame traded_kills) [] None))
    by (vm_compute; left; reflexivity).
  apply H in Hin. destruct Hin as [Hin _].
  assert (E : feq (kd_ratio traded_line) (of_nat (kills traded_line)))
    by (vm_compute; reflexivity).
  apply Hin in E. vm_compute in E. discriminate E.
Qed.

(** C5, amended: for every stat line of the aggregator, whose kills
    and deaths are the player's numbers of kill rows as attacker and as
    victim, and for every line of the round-by-round table: the K/D
    ratio is kills / deaths when deaths > 0 and is kills when
    deaths = 0; it is a finite number and never negative; and it equals
    the kills exactly when the player has at most one death or no
    kill. *)
Theorem kd_ratio_equals_kills_iff (kf : KillFrame)
  (dmg : list DamageEvent) (rounds : option (list RoundEndEvent)) :
  (forall r, In r (player_statistics kf dmg rounds) ->
     kills r = kills_by (player_name r) (kill_rows kf) /\
     deaths r = deaths_of (player_name r) (kill_rows kf) /\
     kd_convention (kills r) (deaths r) (kd_ratio r) /\
     (feq (kd_ratio r) (of_nat (kills r)) <->
      (deaths r <= 1)%nat \/ kills r = 0%nat)) /\
  (forall r, In r (round_by_round_stats (kill_rows kf)) ->
     kd_convention (rs_kills r) (rs_deaths r) (rs_kd_ratio r) /\
     (feq (rs_kd_ratio r) (of_nat (rs_kills r)) <->
      (rs_deaths r <= 1)%nat \/ rs_kills r = 0%nat)).
Proof.
  split.
  - intros r Hr. apply stat_line_counts in Hr as (Hk & _ & Hd & Hkd & _).
    split; [exact Hk|]. split; [exact Hd|]. rewrite Hkd.
    split; [apply kd_ratio_of_convention|apply kd_ratio_of_equals_kills].
  - intros r Hr. rewrite (round_stat_line_kd _ _ Hr).
    split; [apply kd_ratio_of_convention|apply kd_ratio_of_equals_kills].
Qed.

(** The scenario of the specification: A has 3 kills, no death, a K/D
    of 3, 100 damage and an ADR of 50. *)
Example scenario_line_of_A :
  match scenario_stats with
  | a :: _ =>
      player_name a = "A"%string /\ kills a = 3%nat /\ deaths a = 0%nat /\
      kd_ratio a = Fin 3 /\ total_damage a = 100 /\ feq (adr a) (Fin 50)
  | [] => False
  end.
Proof. vm_compute. repeat split. Qed.

(** With one death the K/D is the number of kills as well: the
    convention does not single out the players without a death. *)
Example kd_with_one_death : feq (kd_ratio_of 3 1) (of_nat 3).
Proof. reflexivity. Qed.

Lemma headshots_le_kills (name : string) (rows : list KillEvent) :
  (headshots_by name rows <= kills_by name rows)%nat.
Proof. unfold headshots_by, kills_by, count_true. apply filter_length_le. Qed.

Lemma hs_percentage_of_range (h k : nat) :
  (h <= k)%nat ->
  (exists q, hs_percentage_of h k = Fin q /\ (0 <= q)%Q /\ (q <= 100)%Q) /\
  (k = 0%nat -> hs_percentage_of h k = Fin 0).
Proof.
  intros Hle. unfold hs_percentage_of. destruct k as [|k].
  - assert (h = 0%nat) as -> by lia. split; [|reflexivity].
    exists 0%Q. repeat split; simpl; unfold Qle; simpl; lia.
  - split; [|discriminate].
    unfold fdiv, of_nat. rewrite qsign_of_nat_pos by lia. simpl.
    eexists. split; [reflexivity|].
    assert (Hk : (0 < inject_Z (Z.of_nat (S k)))%Q)
      by (unfold Qlt; simpl; lia).
    split.
    + apply Qmult_le_0_compat; [|unfold Qle; simpl; lia].
      apply Qle_shift_div_l; [exact Hk|].
      rewrite Qmult_0_l. apply inject_nat_nonneg.
    + setoid_replace (100 : Q) with (1 * 100)%Q at 2 by ring.
      apply Qmult_le_compat_r; [|unfold Qle; simpl; lia].
      apply Qle_shift_div_r; [exact Hk|].
      rewrite Qmult_1_l. rewrite <- Zle_Qle. lia.
Qed.

(** C6: for every stat line of the aggregator the headshot percentage
    is a finite number between 0 and 100, and it is 0 whenever the
    player has no kills, also for a player who appears only as a
    victim. *)
Theorem hs_percentage_bounds (kf : KillFrame) (dmg : list DamageEvent)
  (rounds : option (list RoundEndEvent)) (r : PlayerStatLine) :
  In r (player_statistics kf dmg rounds) ->
  (exists q, hs_percentage r = Fin q /\ (0 <= q)%Q /\ (q <= 100)%Q) /\
  (kills r = 0%nat -> hs_percentage r = Fin 0).
Proof.
  intros Hr. apply stat_line_counts in Hr as (Hk & Hh & _ & _ & Hhs & _).
  rewrite Hhs. apply hs_percentage_of_range.
  rewrite Hk, Hh. apply headshots_le_kills.
Qed.

Lemma hs_percentage_bounds_witness :
  In victim_line scenario_stats /\
  ((exists q, hs_percentage victim_line = Fin q /\ (0 <= q)%Q /\ (q <= 100)%Q) /\
   (kills victim_line = 0%nat -> hs_percentage victim_line = Fin 0)).
Proof.
  assert (H : In victim_line scenario_stats)
    by (vm_compute; right; left; reflexivity).
  split; [exact H|].
  exact (hs_percentage_bounds (frame scenario_kills) scenario_damages
           (Some scenario_rounds) victim_line H).
Defined.

(** With at least one round-end row, or without a round table, the ADR
    is the total damage over the number of rounds. *)
Lemma adr_with_rounds (kf : KillFrame) (dmg : list DamageEvent)
  (rounds : option (list RoundEndEvent)) (r : PlayerStatLine) :
  (1 <= total_rounds_of rounds)%nat ->
  In r (player_statistics kf dmg rounds) ->
  adr r = guarded_adr (total_damage r) (total_rounds_of rounds).
Proof.
  intros Hn Hr. apply stat_line_counts in Hr as (_ & _ & _ & _ & _ & Hadr).
  rewrite Hadr. unfold fdiv, of_Z, of_nat, guarded_adr.
  rewrite qsign_of_nat_pos by lia.
  now rewrite Z.max_r by lia.
Qed.

(** C3, the failing input: a match with one kill, 40 damage and a
    round-end table that is present but empty.  [quick_parse] returns
    an ADR of +inf for the attacker and NaN for the victim, where the
    guarded quotient [total_damage / max(1, 0)] is 40 and 0. *)
Theorem adr_unguarded_for_zero_rounds :
  (match quick_parse
           (fun _ => Returned (decoder zero_round_kills zero_round_damages
                                       zero_round_rounds []))
           "match.dem" with
   | Returned table =>
       map (fun r => (player_name r, total_damage r, adr r)) table
   | Raised _ => []
   end) = [("A"%string, 40, PInf); ("B"%string, 0, NaN)] /\
  guarded_adr 40 (length zero_round_rounds) = Fin (40 # 1) /\
  guarded_adr 0 (length zero_round_rounds) = Fin (0 # 1).
Proof. repeat split; vm_compute; reflexivity. Qed.

End StatsFacts.

(* ================================================================== *)
(** * The multi-kill detector *)
(* ================================================================== *)

Module MultiKillFacts.
Import Parser Rating Claims Samples.

Lemma pair_eqb_spec (a b : string * nat) : reflect (a = b) (pair_eqb a b).
Proof.
  destruct a as [s n], b as [s' n']. unfold pair_eqb. simpl.
  destruct (String.eqb_spec s s') as [->|Hs]; simpl.
  - destruct (Nat.eqb_spec n n') as [->|Hn]; constructor; congruence.
  - constructor. congruence.
Qed.

Lemma multi_kill_step_entries (d : list (string * list MultiKill))
  (row : (string * nat) * (nat * Z)) :
  Permutation (entries (multi_kill_step d row)) (entry_of row :: entries d).
Proof.
  destruct row as [[p r] [c t]]. unfold multi_kill_step, entry_of. simpl.
  destruct (lookup String.eqb p d) as [v|] eqn:E.
  - assert (Hm : mem String.eqb p (map fst d) = true).
    { destruct (mem String.eqb p (map fst d)) eqn:Hm; [reflexivity|].
      apply lookup_None_mem in Hm. congruence. }
    rewrite Hm. unfold cell. rewrite E.
    now apply (entries_dict_set String.eqb String.eqb_spec).
  - assert (Hm : mem String.eqb p (map fst d) = false)
      by now apply lookup_None_mem.
    rewrite Hm. rewrite (dict_set_absent String.eqb p [] d E).
    unfold cell.
    rewrite (lookup_app_absent String.eqb String.eqb_spec p [] d E).
    rewrite (entries_dict_set String.eqb String.eqb_spec p _ [] (d ++ [(p, [])])).
    + constructor. unfold entries. rewrite flat_map_app. simpl.
      now rewrite app_nil_r.
    + now apply (lookup_app_absent String.eqb String.eqb_spec).
Qed.

Lemma multi_kill_loop_entries (rows : list ((string * nat) * (nat * Z))) :
  forall d,
    Permutation (entries (fold_left multi_kill_step rows d))
                (entries d ++ map entry_of rows).
Proof.
  induction rows as [|row rows IH]; intros d; simpl.
  - now rewrite app_nil_r.
  - rewrite IH, multi_kill_step_entries. simpl.
    apply Permutation_middle.
Qed.

Lemma NoDup_map_fst_filter {A B : Type} (f : A * B -> bool) (l : list (A * B)) :
  NoDup (map fst l) -> NoDup (map fst (filter f l)).
Proof.
  induction l as [|[a b] l IH]; simpl; intros H; [constructor|].
  inversion_clear H as [|? ? Hnotin Hnd].
  destruct (f (a, b)); simpl; [|now apply IH].
  constructor; [|now apply IH].
  intros Hin. apply Hnotin.
  apply in_map_iff in Hin as (x & Hx & Hin).
  apply filter_In in Hin as [Hin _].
  apply in_map_iff. now exists x.
Qed.

Lemma multi_kill_rounds_keys (df : list KillEvent) :
  NoDup (map fst (multi_kill_rounds df)).
Proof.
  unfold multi_kill_rounds, kills_per_round.
  apply NoDup_map_fst_filter. rewrite groupby_keys.
  apply (group_labels_NoDup pair_eqb pair_eqb_spec).
Qed.

Lemma group_player_round (df : list KillEvent) (p : string) (r : nat) :
  group pair_eqb player_round df (p, r) = kills_in_round p r df.
Proof.
  unfold group, kills_in_round. apply filter_ext. intros k.
  unfold player_round, name_is, pair_eqb.
  destruct (attacker_name k); reflexivity.
Qed.

Lemma fold_min_le (ts : list Z) :
  forall t, fold_left Z.min ts t <= t /\
            (forall u, In u ts -> fold_left Z.min ts t <= u) /\
            In (fold_left Z.min ts t) (t :: ts).
Proof.
  induction ts as [|u ts IH]; intros t; simpl.
  - repeat split; [lia|tauto|auto].
  - destruct (IH (Z.min t u)) as (H1 & H2 & H3). repeat split.
    + lia.
    + intros v [<-|Hv]; [lia|now apply H2].
    + destruct H3 as [H3|H3]; [|auto].
      rewrite <- H3. destruct (Z.min_spec t u) as [[_ ->]|[_ ->]]; auto.
Qed.

Lemma min_tick_least (g : list KillEvent) :
  g <> [] ->
  In (min_tick g) (map k_tick g) /\
  (forall k, In k g -> min_tick g <= k_tick k).
Proof.
  unfold min_tick. destruct g as [|k0 g]; [congruence|]. intros _. simpl.
  destruct (fold_min_le (map k_tick g) (k_tick k0)) as (H1 & H2 & H3).
  split; [exact H3|].
  intros k [<-|Hk]; [exact H1|].
  apply H2. now apply in_map.
Qed.

(** The rows kept by the filter are the groups of at least two kills,
    with their size and least tick. *)
Lemma multi_kill_rounds_In (df : list KillEvent) (p : string) (r c : nat) (t : Z) :
  In ((p, r), (c, t)) (multi_kill_rounds df) ->
  (2 <= c)%nat /\
  c = length (kills_in_round p r df) /\
  t = min_tick (kills_in_round p r df).
Proof.
  unfold multi_kill_rounds, kills_per_round, groupby.
  rewrite filter_In, in_map_iff.
  intros [(key & E & _) Hc]. cbn [fst snd] in Hc.
  apply Nat.leb_le in Hc. injection E as -> <- <-.
  rewrite group_player_round in *. auto.
Qed.

(** The scenario of the specification: one double kill of A in round
    1, first kill at tick 100; the single kill of round 2 is not
    reported. *)
Example scenario_double_kill :
  scenario_multi_kills =
  [("A"%string, [{| round_num := 1; kill_count := 2; mk_tick := 100 |}])].
Proof. reflexivity. Qed.

(** C7: for every kill table with assigned rounds the detector reports
    at most one event per (player, round); every reported event counts
    at least two kills, its count is the player's number of kills in
    that round, and its tick is the least tick among these kills. *)
Theorem multi_kill_one_per_player_round (self : CS2DemoParser) :
  let multi_kills := get_multi_kills self in
  NoDup (map (fun pe => (fst pe, round_num (snd pe))) (entries multi_kills)) /\
  (forall p e, In (p, e) (entries multi_kills) ->
     exists kf,
       df_kills self = Some kf /\
       (2 <= kill_count e)%nat /\
       kill_count e = length (kills_in_round p (round_num e) (kill_rows kf)) /\
       In (mk_tick e) (map k_tick (kills_in_round p (round_num e) (kill_rows kf))) /\
       (forall k, In k (kills_in_round p (round_num e) (kill_rows kf)) ->
                  mk_tick e <= k_tick k)).
Proof.
  unfold get_multi_kills.
  destruct (df_kills self) as [kf|]; [|split; [constructor|intros p e []]].
  destruct (has_round kf); simpl; [|split; [constructor|intros p e []]].
  pose proof (multi_kill_loop_entries (multi_kill_rounds (kill_rows kf)) [])
    as Hperm. simpl in Hperm.
  split.
  - eapply Permutation_NoDup.
    + apply Permutation_map, Permutation_sym, Hperm.
    + rewrite map_map. simpl.
      rewrite <- (map_ext fst) by (intros [[? ?] [? ?]]; reflexivity).
      apply multi_kill_rounds_keys.
  - intros p e Hin. exists kf. split; [reflexivity|].
    apply (Permutation_in _ Hperm) in Hin.
    apply in_map_iff in Hin as ([[p' r] [c t]] & E & Hin).
    unfold entry_of in E. simpl in E. injection E as -> <-. simpl.
    apply multi_kill_rounds_In in Hin as (Hc & Hlen & Ht).
    repeat split; [exact Hc|exact Hlen|..];
      (assert (Hne : kills_in_round p r (kill_rows kf) <> [])
        by (intros E; rewrite E in Hlen; simpl in Hlen; lia));
      destruct (min_tick_least _ Hne) as [H1 H2]; subst t; auto.
Qed.

End MultiKillFacts.

(* ================================================================== *)
(** * The position correlator and the entry point *)
(* ================================================================== *)

Module PipelineFacts.
Import Parser Claims Samples.

(** C2, the failing input: A kills B at tick 100; the tick table holds
    a sample of B and a sample of A at tick 100.  The positions
    returned for the kills of A are the position of B's sample, which
    is the position of no sample of A. *)
Theorem heatmap_position_of_other_player :
  get_positions_for_heatmap (parsed duel_kills [] [] duel_ticks)
                            "A" "kills"
  = [position_of (sample 100 "B" 1 1 1)] /\
  ~ In (position_of (sample 100 "B" 1 1 1))
       (map position_of (samples_of "A" duel_ticks)).
Proof.
  split; [reflexivity|].
  simpl. intros [H|[]]. discriminate H.
Qed.

(** [parse_demo] itself never raises: the handler turns every
    exception of the decoder into [False]. *)
Lemma parse_demo_returns (self : CS2DemoParser) :
  exists ok self', parse_demo self = (Returned ok, self').
Proof.
  unfold parse_demo, try_except, bind, call, modify, get, ret.
  destruct self as [path [[kf|e1] [dm|e2] [rs|e3] [tk|e4]] k d r t]; simpl;
    do 2 eexists; reflexivity.
Qed.

(** [parse_demo] fails exactly when a call of the decoder raises. *)
Lemma parse_demo_false (self : CS2DemoParser) :
  fst (parse_demo self) = Returned false <->
  (exists e, parse_event_player_death (parser self) = Raised e) \/
  (exists e, parse_event_player_hurt (parser self) = Raised e) \/
  (exists e, parse_event_round_end (parser self) = Raised e) \/
  (exists e, parse_ticks (parser self) = Raised e).
Proof.
  unfold parse_demo, try_except, bind, call, modify, get, ret.
  destruct self as [path [[kf|e1] [dm|e2] [rs|e3] [tk|e4]] k d r t]; simpl;
    split; intros H; try reflexivity; try discriminate; eauto 6;
    destruct H as [[e H]|[[e H]|[[e H]|[e H]]]]; discriminate.
Qed.

(** C10, the failing input: the decoder's constructor runs in
    [__init__], outside the handler of [parse_demo].  For a path at
    which it raises (here the file that does not exist), [quick_parse]
    raises the same exception instead of returning the empty table;
    this holds for every constructor and every path at which it
    raises.  Only once the decoder is constructed does [quick_parse]
    pass no failure on: [parse_demo] does not raise; when it returns
    [False], [quick_parse] returns the empty table; when it returns
    [True], the kill and damage tables are present and [quick_parse]
    returns what [get_player_statistics] returns on the parsed object,
    the per-player statistics table of these tables. *)
Theorem quick_parse_raises_from_constructor :
  quick_parse open_existing "missing.dem" =
    Raised "No such file or directory (os error 2)" /\
  (forall open_demo demo_path msg,
     open_demo demo_path = Raised msg ->
     quick_parse open_demo demo_path = Raised msg) /\
  (forall open_demo demo_path decoder,
     open_demo demo_path = Returned decoder ->
     match parse_demo (Parser.init decoder demo_path) with
     | (Returned false, _) => quick_parse open_demo demo_path = Returned []
     | (Returned true, self) =>
         exists kf dmg,
           df_kills self = Some kf /\ df_damages self = Some dmg /\
           quick_parse open_demo demo_path = fst (get_player_statistics self) /\
           quick_parse open_demo demo_path =
           Returned (player_statistics kf dmg (df_rounds self))
     | (Raised _, _) => False
     end).
Proof.
  split; [reflexivity|]. split.
  - intros open_demo demo_path msg E. unfold quick_parse, construct.
    now rewrite E.
  - intros open_demo demo_path decoder E.
    unfold quick_parse, construct. rewrite E.
    unfold parse_demo, try_except, bind, call, modify, get, ret.
    unfold Parser.init. simpl.
    destruct decoder as [[kf|e1] [dm|e2] [rs|e3] [tk|e4]]; simpl;
      try reflexivity.
    do 2 eexists. repeat split.
Qed.

End PipelineFacts.

(* ================================================================== *)
(** * The rating engine *)
(* ================================================================== *)

Module RatingFacts.
Import Parser Rating Claims Samples.

(** ** The order of the ratings *)

Lemma fcompare_antisym (a b : fnum) :
  not_nan a -> not_nan b -> fcompare a b = CompOpp (fcompare b a).
Proof.
  unfold not_nan.
  destruct a, b; simpl; try discriminate; try reflexivity.
  intros _ _. symmetry. apply Qcompare_antisym.
Qed.

Lemma fcompare_trans (a b c : fnum) :
  not_nan a -> not_nan b -> not_nan c ->
  fcompare a b = Gt -> fcompare b c = Gt -> fcompare a c = Gt.
Proof.
  unfold not_nan.
  destruct a, b, c; simpl; try discriminate; try reflexivity.
  intros _ _ _. rewrite <- !Qgt_alt. intros H1 H2.
  eapply Qlt_trans; eassumption.
Qed.

Lemma fcompare_eq_l (a b c : fnum) :
  not_nan a -> not_nan b -> not_nan c ->
  fcompare a b = Eq -> fcompare a c = fcompare b c.
Proof.
  unfold not_nan.
  destruct a, b, c; simpl; try discriminate; try reflexivity.
  intros _ _ _. rewrite <- Qeq_alt. intros E. now rewrite E.
Qed.

(** ** The report *)

Lemma existsb_is_nan (column : list fnum) :
  existsb is_nan column = false -> Forall not_nan column.
Proof.
  induction column as [|v column IH]; simpl; [constructor|].
  intros H. apply orb_false_iff in H as [H1 H2]. constructor; auto.
Qed.

(** A returned report holds the rated lines of the input, each with
    the dense rank of its rating in the column of all ratings, none of
    which is NaN. *)
Lemma report_rows_ranked {K : Type} (self : PlayerRatingCalculator K)
  (table : list PlayerStatLine) (multikills : list (string * list MultiKill))
  (rows : list RatedStatLine) :
  fst (generate_rating_report self table multikills) = Returned rows ->
  let column := map overall_rating rows in
  Forall not_nan column /\
  map stats rows = table /\
  (forall r, In r rows ->
     overall_rating r =
       overall_of (kd_score r) (hs_score r) (adr_score r)
                  (of_nat (multikill_score r)) /\
     rank r = dense_rank fcompare column (overall_rating r)).
Proof.
  unfold generate_rating_report.
  destruct (existsb is_nan _) eqn:E; simpl; [discriminate|].
  intros H. injection H as <-. simpl.
  apply existsb_is_nan in E.
  rewrite !map_map in *. simpl.
  split; [exact E|].
  split; [apply map_id|].
  intros r Hr. apply in_map_iff in Hr as (x & <- & _). simpl. auto.
Qed.

(** The report is returned whenever no input ratio is NaN. *)
Lemma report_returns {K : Type} (self : PlayerRatingCalculator K)
  (table : list PlayerStatLine) (multikills : list (string * list MultiKill)) :
  Forall (fun row => not_nan (kd_ratio row) /\ not_nan (hs_percentage row) /\
                     not_nan (adr row)) table ->
  exists rows,
    fst (generate_rating_report self table multikills) = Returned rows.
Proof.
  intros H. unfold generate_rating_report.
  assert (E : existsb is_nan
                (map overall_rating (map (rate multikills) table)) = false).
  { induction H as [|row table (Hkd & Hhs & Had) _ IH]; [reflexivity|].
    simpl. rewrite IH, orb_false_r. unfold overall_of, not_nan in *.
    unfold _calculate_kd_score, _calculate_adr_score, _calculate_hs_score.
    destruct (kd_ratio row), (hs_percentage row), (adr row);
      try discriminate; reflexivity. }
  rewrite E. eexists. reflexivity.
Qed.

(** C8: in a returned report the rank is the dense rank of the overall
    rating, descending: a line that no line exceeds has rank 1; two
    lines with the same rating have the same rank; and a line whose
    rating is the next lower distinct one after that of another line
    has the rank of that line plus 1, however many lines are tied. *)
Theorem report_rank_is_dense {K : Type} (self : PlayerRatingCalculator K)
  (table : list PlayerStatLine) (multikills : list (string * list MultiKill))
  (rows : list RatedStatLine) :
  fst (generate_rating_report self table multikills) = Returned rows ->
  (forall r, In r rows ->
     (forall r', In r' rows -> rating_cmp r' r <> Gt) -> rank r = 1%nat) /\
  (forall r r', In r rows -> In r' rows ->
     rating_cmp r r' = Eq -> rank r = rank r') /\
  (forall r r', In r rows -> In r' rows ->
     rating_cmp r' r = Lt ->
     (forall r'', In r'' rows ->
        ~ (rating_cmp r' r'' = Lt /\ rating_cmp r'' r = Lt)) ->
     rank r' = S (rank r)).
Proof.
  intros H. destruct (report_rows_ranked self table multikills rows H)
    as (Hord & _ & Hrank).
  assert (Hin : forall r, In r rows -> not_nan (overall_rating r)).
  { intros r Hr. rewrite Forall_forall in Hord. now apply Hord, in_map. }
  unfold rating_cmp. repeat split.
  - intros r Hr Hmax. rewrite (proj2 (Hrank r Hr)).
    apply dense_rank_top. intros u Hu.
    apply in_map_iff in Hu as (r' & <- & Hr'). now apply Hmax.
  - intros r r' Hr Hr' E.
    rewrite (proj2 (Hrank r Hr)), (proj2 (Hrank r' Hr')).
    apply (dense_rank_tie fcompare not_nan
             fcompare_antisym fcompare_eq_l); auto.
  - intros r r' Hr Hr' Hlt Hbetween.
    rewrite (proj2 (Hrank r Hr)), (proj2 (Hrank r' Hr')).
    apply (dense_rank_next fcompare not_nan
             fcompare_antisym fcompare_trans fcompare_eq_l); auto.
    + now apply in_map.
    + intros u Hu. apply in_map_iff in Hu as (r'' & <- & Hr'').
      now apply Hbetween.
Qed.

Lemma report_rank_is_dense_witness :
  fst (generate_rating_report (Rating.init tt default_base_rating)
         scenario_stats scenario_multi_kills) = Returned scenario_report /\
  ((forall r, In r scenario_report ->
      (forall r', In r' scenario_report -> rating_cmp r' r <> Gt) ->
      rank r = 1%nat) /\
   (forall r r', In r scenario_report -> In r' scenario_report ->
      rating_cmp r r' = Eq -> rank r = rank r') /\
   (forall r r', In r scenario_report -> In r' scenario_report ->
      rating_cmp r' r = Lt ->
      (forall r'', In r'' scenario_report ->
         ~ (rating_cmp r' r'' = Lt /\ rating_cmp r'' r = Lt)) ->
      rank r' = S (rank r))).
Proof.
  assert (H : fst (generate_rating_report (Rating.init tt default_base_rating)
                     scenario_stats scenario_multi_kills)
              = Returned scenario_report) by reflexivity.
  split; [exact H|].
  exact (report_rank_is_dense (Rating.init tt default_base_rating)
           scenario_stats scenario_multi_kills scenario_report H).
Defined.

(** The ranks of the scenario: A first, the three victims tied second. *)
Example scenario_ranks :
  map (fun r => (player_name (stats r), rank r)) scenario_report =
  [("A"%string, 1%nat); ("B"%string, 2%nat); ("C"%string, 2%nat);
   ("D"%string, 2%nat)].
Proof. reflexivity. Qed.

(** ** The weights *)

Lemma fixed_weights_sum : (weight_sum fixed_weights == 1)%Q.
Proof. reflexivity. Qed.

Lemma report_uses_fixed_weights {K : Type} (self : PlayerRatingCalculator K)
  (table : list PlayerStatLine) (multikills : list (string * list MultiKill))
  (rows : list RatedStatLine) (r : RatedStatLine) :
  fst (generate_rating_report self table multikills) = Returned rows ->
  In r rows -> overall_rating r = weighted_rating fixed_weights r.
Proof.
  intros H Hr.
  destruct (report_rows_ranked self table multikills rows H) as (_ & _ & Hrank).
  exact (proj1 (Hrank r Hr)).
Qed.

(** C1, the failing input: a calculator constructed with the weights
    1, 1, 1, 1 and one stat line with a K/D of 3 and nothing else.  The
    specification normalises the weights to 1/4 each and rates the line
    25; the report rates it 35, the value under the fixed weights
    0.35, 0.20, 0.30, 0.15, which every report applies whatever the
    calculator was constructed with. *)
Theorem report_ignores_weight_configuration :
  (forall (w : Weights) table multikills,
     fst (generate_rating_report (Rating.init w default_base_rating)
                                 table multikills) =
     fst (generate_rating_report (Rating.init fixed_weights default_base_rating)
                                 table multikills)) /\
  (w_kd (spec_effective_weights all_ones) == 1 # 4)%Q /\
  match lone_report with
  | [r] =>
      feq (overall_rating r) (Fin 35) /\
      feq (weighted_rating (spec_effective_weights all_ones) r) (Fin 25)
  | _ => False
  end.
Proof.
  split.
  - intros w table multikills. unfold generate_rating_report.
    destruct (existsb is_nan _); reflexivity.
  - split; vm_compute; [reflexivity|split; reflexivity].
Qed.

End RatingFacts.

(* ================================================================== *)
(** * The rating update and the state of the calculator *)
(* ================================================================== *)

Module EloFacts.
Import Parser Rating Claims Samples.
Local Open Scope R_scope.

Lemma expected_score_even (r : R) : calculate_expected_score r r = 1 / 2.
Proof.
  unfold calculate_expected_score.
  replace ((r - r) / 400) with 0 by lra.
  rewrite Rpower_O by lra. lra.
Qed.

(** One row for the only stored player: the average is the player's
    own rating, the expected score is 1/2. *)
Lemma update_player_alone (k r kd : R) (p : string) :
  update_player k [(p, r)] {| ri_player_name := p; ri_kd_ratio := kd |} =
  [(p, r + k * (Rmin (kd / 2) 1 - 1 / 2))].
Proof.
  unfold update_player, rating_of, sum_values. simpl.
  rewrite String.eqb_refl.
  replace ((0 + r) / 1) with r by lra.
  now rewrite expected_score_even.
Qed.

Lemma update_lone_player (k base r kd : R) (p : string) :
  fst (update_ratings (calculator_of k base p r)
                      [{| ri_player_name := p; ri_kd_ratio := kd |}]) =
  [(p, r + k * (Rmin (kd / 2) 1 - 1 / 2))].
Proof.
  unfold update_ratings, calculator_of. simpl.
  unfold register_player. simpl. rewrite String.eqb_refl. simpl.
  apply update_player_alone.
Qed.

(** A new player is first stored at the base rating. *)
Lemma update_new_player (k base kd : R) (p : string) :
  update_ratings (Rating.init k base)
                 [{| ri_player_name := p; ri_kd_ratio := kd |}] =
  ([(p, base + k * (Rmin (kd / 2) 1 - 1 / 2))],
   calculator_of k base p (base + k * (Rmin (kd / 2) 1 - 1 / 2))).
Proof.
  unfold update_ratings, calculator_of, Rating.init, set_player_ratings.
  simpl. unfold register_player. simpl.
  now rewrite update_player_alone.
Qed.

Lemma capped_performance : Rmin (2 / 2) 1 = 1.
Proof. unfold Rmin. destruct (Rle_dec (2 / 2) 1); lra. Qed.

(** C4, as stated, fails: on a new calculator with the default
    parameters the update on the one-row table of A (K/D 2) returns
    A at 1516; the same call repeated returns A at 1532. *)
Lemma second_update_differs : ~ repeatable_update.
Proof.
  intros H.
  specialize (H (Rating.init default_k_factor default_base_rating) [lone_row]).
  unfold lone_row in H. rewrite update_new_player in H.
  cbn [fst snd] in H. rewrite update_lone_player in H.
  injection H as H. rewrite capped_performance in H.
  unfold default_k_factor, default_base_rating in H. lra.
Qed.

Example first_and_second_update :
  let first := update_ratings
                 (Rating.init default_k_factor default_base_rating)
                 [lone_row] in
  fst first = [("A"%string, 1516)] /\
  fst (update_ratings (snd first) [lone_row]) = [("A"%string, 1532)].
Proof.
  unfold lone_row. cbv zeta. rewrite update_new_player.
  cbn [fst snd]. rewrite update_lone_player, capped_performance.
  unfold default_k_factor, default_base_rating.
  split; do 2 f_equal; lra.
Qed.

(** C4 (amended): the rating report is a pure function of its inputs:
    it leaves the calculator as it was and returns the same report
    whatever calculator it is called on.  The rating update is a
    function of its input table and of the ratings stored in the
    calculator: it stores the ratings it returns and leaves the other
    parameters alone; two invocations on equal tables return equal
    outputs when the calculators hold equal parameters and equal stored
    ratings; and an invocation on the row of the one stored player
    moves this player's stored rating by
    k_factor * (min(kd / 2, 1) - 1/2). *)
Theorem update_depends_on_stored_ratings :
  (forall (K K' : Type) (self : PlayerRatingCalculator K)
          (self' : PlayerRatingCalculator K') table multikills,
     snd (generate_rating_report self table multikills) = self /\
     fst (generate_rating_report self table multikills) =
     fst (generate_rating_report self' table multikills)) /\
  (forall (self : PlayerRatingCalculator R) table,
     player_ratings (snd (update_ratings self table)) =
       fst (update_ratings self table) /\
     k_factor (snd (update_ratings self table)) = k_factor self /\
     base_rating (snd (update_ratings self table)) = base_rating self) /\
  (forall (self self' : PlayerRatingCalculator R) table,
     k_factor self = k_factor self' ->
     base_rating self = base_rating self' ->
     player_ratings self = player_ratings self' ->
     fst (update_ratings self table) = fst (update_ratings self' table)) /\
  (forall (k base r kd : R) (p : string),
     fst (update_ratings (calculator_of k base p r)
                         [{| ri_player_name := p; ri_kd_ratio := kd |}]) =
     [(p, r + k * (Rmin (kd / 2) 1 - 1 / 2))]).
Proof.
  split; [|split; [|split]].
  - intros K K' self self' table multikills.
    unfold generate_rating_report.
    destruct (existsb is_nan _); split; reflexivity.
  - intros self table. repeat split.
  - intros [k b d] [k' b' d'] table. simpl.
    intros Hk Hb Hd. subst. reflexivity.
  - apply update_lone_player.
Qed.

End EloFacts.

(* ================================================================== *)
(** * More on the round segmenter and the round lookup *)
(* ================================================================== *)

Module SegmenterExtra.
Import Parser Claims Samples SegmenterFacts.

Lemma round_mapping_rounds (df_rounds : list RoundEndEvent) :
  map round (round_mapping df_rounds) = seq 1 (length df_rounds).
Proof.
  rewrite round_mapping_closed.
  pose proof (sort_values_length tick_leb df_rounds) as Hlen.
  rewrite <- (length_map r_tick) in Hlen.
  destruct (map r_tick (sort_values tick_leb df_rounds)) as [|t ts].
  - simpl in Hlen. now rewrite <- Hlen.
  - rewrite intervals_from_round. now rewrite Hlen.
Qed.

Lemma round_mapping_later (df_rounds : list RoundEndEvent) (n m : nat)
  (a b : RoundInterval) :
  (n < m)%nat ->
  nth_error (round_mapping df_rounds) n = Some a ->
  nth_error (round_mapping df_rounds) m = Some b ->
  end_tick a <= start_tick b.
Proof.
  rewrite round_mapping_closed.
  pose proof (sorted_ticks df_rounds) as Hs.
  destruct (map r_tick (sort_values tick_leb df_rounds)) as [|t ts].
  - destruct n; discriminate.
  - destruct (segments_sorted t ts Hs) as (_ & _ & Hlater).
    intros Hnm Ha Hb. exact (Hlater n m a b Hnm Ha Hb).
Qed.

(** The bounds of every interval are ticks of round-end events. *)
Lemma round_mapping_ticks (df_rounds : list RoundEndEvent) (a : RoundInterval) :
  In a (round_mapping df_rounds) ->
  In (start_tick a) (map r_tick df_rounds) /\
  In (end_tick a) (map r_tick df_rounds).
Proof.
  rewrite round_mapping_closed. intros Ha.
  assert (Hsub : forall t, In t (map r_tick (sort_values tick_leb df_rounds)) ->
                           In t (map r_tick df_rounds)).
  { intros t Ht. apply in_map_iff in Ht as (e & <- & He).
    apply in_map. now apply (sort_values_In tick_leb). }
  destruct (map r_tick (sort_values tick_leb df_rounds)) as [|t ts]; [destruct Ha|].
  apply In_nth_error in Ha as [n Ha].
  apply intervals_from_nth in Ha as [He Hst].
  split; [|apply Hsub; eapply nth_error_In; exact He].
  apply Hsub. rewrite Hst. destruct n as [|n]; [now left|].
  apply nth_In.
  assert (nth_error (t :: ts) (S n) <> None) by congruence.
  apply nth_error_Some in H. lia.
Qed.

Lemma find_first {A : Type} (f : A -> bool) (l : list A) :
  forall n b,
    nth_error l n = Some b -> f b = true ->
    (forall m a, (m < n)%nat -> nth_error l m = Some a -> f a = false) ->
    find f l = Some b.
Proof.
  induction l as [|x l IH]; intros n b Hb Hf Hbefore.
  - destruct n; discriminate.
  - destruct n as [|n]; simpl in *.
    + injection Hb as ->. now rewrite Hf.
    + rewrite (Hbefore 0%nat x) by (auto; lia).
      apply (IH n b Hb Hf). intros m a Hm Ha.
      apply (Hbefore (S m) a); [lia|exact Ha].
Qed.

Lemma find_round_default (round_df : list RoundInterval) (tick : Z) :
  (forall a, In a round_df -> in_interval a tick = false) ->
  find_round round_df tick = 1%nat.
Proof.
  intros H. unfold find_round.
  destruct (find (fun row => in_interval row tick) round_df) as [row|] eqn:E;
    [|reflexivity].
  apply find_some in E as [Hin Ht]. rewrite (H row Hin) in Ht. discriminate.
Qed.

Lemma find_round_range (df_rounds : list RoundEndEvent) (tick : Z) :
  (1 <= find_round (round_mapping df_rounds) tick <=
   Nat.max 1 (length df_rounds))%nat.
Proof.
  unfold find_round.
  destruct (find (fun row => in_interval row tick) (round_mapping df_rounds))
    as [row|] eqn:E; [|lia].
  apply find_some in E as [Hin _].
  apply (in_map round) in Hin. rewrite round_mapping_rounds in Hin.
  apply in_seq in Hin. lia.
Qed.

(** X1: the round lookup never fails and never leaves the range of the
    rounds: for every table of round ends and every tick the round
    found lies between 1 and the number of round ends (1 when there
    are none). *)
Theorem find_round_in_range (df_rounds : list RoundEndEvent) (tick : Z) :
  (1 <= find_round (round_mapping df_rounds) tick <=
   Nat.max 1 (length df_rounds))%nat.
Proof. apply find_round_range. Qed.

(** X2: a tick after the start and up to the end of an interval is
    given the round of this interval: the kills of round i, for i from
    2 on, are those after the end of round i - 1 and up to the end of
    round i. *)
Theorem find_round_inside (df_rounds : list RoundEndEvent) (n : nat)
  (b : RoundInterval) (tick : Z) :
  nth_error (round_mapping df_rounds) n = Some b ->
  start_tick b < tick <= end_tick b ->
  find_round (round_mapping df_rounds) tick = round b /\
  round b = S n.
Proof.
  intros Hb Ht. unfold find_round.
  rewrite (find_first _ _ n b Hb).
  - split; [reflexivity|].
    apply (map_nth_error round) in Hb.
    rewrite round_mapping_rounds in Hb.
    assert (Hn : (n < length (seq 1 (length df_rounds)))%nat)
      by (apply nth_error_Some; congruence).
    rewrite length_seq in Hn.
    rewrite (nth_error_nth' _ 0%nat) in Hb by (rewrite length_seq; exact Hn).
    rewrite seq_nth in Hb by exact Hn. injection Hb as Hb. lia.
  - unfold in_interval. lia.
  - intros m a Hm Ha.
    pose proof (round_mapping_later df_rounds m n a b Hm Ha Hb).
    unfold in_interval. lia.
Qed.

Lemma find_round_inside_witness :
  nth_error (round_mapping scenario_rounds) 1 =
    Some {| round := 2; start_tick := 2000; end_tick := 4000 |} /\
  2000 < 3000 <= 4000 /\
  find_round (round_mapping scenario_rounds) 3000 = 2%nat /\
  2%nat = 2%nat.
Proof.
  assert (H1 : nth_error (round_mapping scenario_rounds) 1 =
               Some {| round := 2; start_tick := 2000; end_tick := 4000 |})
    by reflexivity.
  assert (H2 : 2000 < 3000 <= 4000) by lia.
  split; [exact H1|]. split; [exact H2|].
  exact (find_round_inside scenario_rounds 1 _ 3000 H1 H2).
Defined.

(** X3: a tick after every round end, or before every round end, lies
    in no interval and is given round 1: a kill after the last round
    end is counted in the first round. *)
Theorem find_round_outside (df_rounds : list RoundEndEvent) (tick : Z) :
  (forall e, In e df_rounds -> r_tick e < tick) \/
  (forall e, In e df_rounds -> tick < r_tick e) ->
  find_round (round_mapping df_rounds) tick = 1%nat.
Proof.
  intros H. apply find_round_default. intros a Ha.
  apply round_mapping_ticks in Ha as [Hs He].
  apply in_map_iff in Hs as (e1 & E1 & H1).
  apply in_map_iff in He as (e2 & E2 & H2).
  unfold in_interval. rewrite <- E1, <- E2.
  destruct H as [H|H].
  - specialize (H e2 H2). lia.
  - specialize (H e1 H1). lia.
Qed.

Lemma find_round_outside_witness :
  ((forall e, In e scenario_rounds -> r_tick e < 5000) \/
   (forall e, In e scenario_rounds -> 5000 < r_tick e)) /\
  find_round (round_mapping scenario_rounds) 5000 = 1%nat.
Proof.
  assert (H : (forall e, In e scenario_rounds -> r_tick e < 5000) \/
              (forall e, In e scenario_rounds -> 5000 < r_tick e)).
  { left. intros e [<-|[<-|[]]]; simpl; lia. }
  split; [exact H|].
  exact (find_round_outside scenario_rounds 5000 H).
Defined.

End SegmenterExtra.

(* ================================================================== *)
(** * More on the parser object: round assignment, parsing, statistics *)
(* ================================================================== *)

Section GroupbyMap.
Context {K A B : Type}.
Variable eqb : K -> K -> bool.
Variable leb : K -> K -> bool.
Variable key : A -> option K.
Variable f : A -> A.
Hypothesis key_f : forall r, key (f r) = key r.

Lemma key_column_map (rows : list A) :
  key_column key (map f rows) = key_column key rows.
Proof.
  unfold key_column. induction rows as [|r rows IH]; simpl; [reflexivity|].
  now rewrite key_f, IH.
Qed.

Lemma group_map (rows : list A) (k : K) :
  group eqb key (map f rows) k = map f (group eqb key rows k).
Proof.
  unfold group. induction rows as [|r rows IH]; simpl; [reflexivity|].
  rewrite key_f. destruct (key r) as [k'|]; [|exact IH].
  destruct (eqb k' k); simpl; now rewrite IH.
Qed.

(** A row-wise change that keeps the key and the aggregate keeps the
    grouped series. *)
Lemma groupby_map (agg : list A -> B) (rows : list A) :
  (forall g, agg (map f g) = agg g) ->
  groupby eqb leb key agg (map f rows) = groupby eqb leb key agg rows.
Proof.
  intros Hagg. unfold groupby, group_labels.
  rewrite key_column_map. apply map_ext. intros k.
  now rewrite group_map, Hagg.
Qed.
End GroupbyMap.

Module ParserExtra.
Import Parser Claims Samples More.

Lemma count_true_headshot_assign (round_df : list RoundInterval)
  (g : list KillEvent) :
  count_true headshot (map (assign round_df) g) = count_true headshot g.
Proof.
  unfold count_true. induction g as [|k g IH]; simpl; [reflexivity|].
  destruct (headshot k); simpl; now rewrite IH.
Qed.

(** The statistics do not read the round column. *)
Lemma player_statistics_assign (round_df : list RoundInterval) (kf : KillFrame)
  (dmg : list DamageEvent) (rounds : option (list RoundEndEvent)) (hr : bool) :
  player_statistics
    {| kill_rows := map (assign round_df) (kill_rows kf);
       has_round := hr; has_assister := has_assister kf |} dmg rounds =
  player_statistics kf dmg rounds.
Proof.
  unfold player_statistics, kills_stats, deaths_stats, assists_stats. simpl.
  rewrite (groupby_map String.eqb String.leb attacker_name (assign round_df))
    by (try reflexivity; intros g; now rewrite length_map, count_true_headshot_assign).
  rewrite (groupby_map String.eqb String.leb user_name (assign round_df))
    by (try reflexivity; intros g; apply length_map).
  destruct (has_assister kf); [|reflexivity].
  assert (E : filter (fun k => match assister_name k with
                               | Some _ => true | None => false end)
                (map (assign round_df) (kill_rows kf)) =
              map (assign round_df)
                (filter (fun k => match assister_name k with
                                  | Some _ => true | None => false end)
                        (kill_rows kf))).
  { induction (kill_rows kf) as [|k l IH]; simpl; [reflexivity|].
    destruct (assister_name k); simpl; now rewrite IH. }
  rewrite E.
  rewrite (groupby_map String.eqb String.leb assister_name (assign round_df))
    by (try reflexivity; intros g; apply length_map).
  reflexivity.
Qed.

(** X4: the round assignment changes nothing but the round column:
    the kill table keeps its rows in number and order, each row keeps
    its tick, attacker, victim, assister, headshot flag and weapon, and
    gets the round that the lookup finds for its tick, a round between
    1 and the number of round ends.  Without a kill table or a round
    table the object is left as it is. *)
Theorem assign_rounds_keeps_kills (self : CS2DemoParser) :
  match df_kills self, df_rounds self with
  | Some kf, Some rounds =>
      exists kf',
        snd (_assign_rounds_to_kills self) = set_df_kills (Some kf') self /\
        has_round kf' = true /\ has_assister kf' = has_assister kf /\
        Forall2
          (fun k k' =>
             k_tick k' = k_tick k /\ attacker_name k' = attacker_name k /\
             user_name k' = user_name k /\ assister_name k' = assister_name k /\
             headshot k' = headshot k /\ weapon k' = weapon k /\
             k_round k' = find_round (round_mapping rounds) (k_tick k) /\
             (1 <= k_round k' <= Nat.max 1 (length rounds))%nat)
          (kill_rows kf) (kill_rows kf')
  | _, _ => snd (_assign_rounds_to_kills self) = self
  end.
Proof.
  unfold _assign_rounds_to_kills, bind, get, modify, ret.
  destruct (df_kills self) as [kf|] eqn:Ek;
    destruct (df_rounds self) as [rounds|] eqn:Er; simpl;
    rewrite ?Ek, ?Er; simpl; try reflexivity.
  eexists. split; [reflexivity|]. simpl. repeat split.
  induction (kill_rows kf) as [|k l IH]; simpl; constructor; [|exact IH].
  repeat split; try reflexivity; simpl;
    apply SegmenterExtra.find_round_range.
Qed.

(** X6: when the decoder is constructed and delivers its four tables,
    [quick_parse] returns the statistics of the kill and damage tables
    as delivered, with the number of delivered round ends: the rounds
    assigned in between have no effect on the statistics. *)
Theorem quick_parse_of_delivered_tables
  (open_demo : string -> outcome DemoParser) (demo_path : string)
  (decoder : DemoParser) (kf : KillFrame) (dmg : list DamageEvent)
  (rounds : list RoundEndEvent) (ticks : list TickRow) :
  open_demo demo_path = Returned decoder ->
  parse_event_player_death decoder = Returned kf ->
  parse_event_player_hurt decoder = Returned dmg ->
  parse_event_round_end decoder = Returned rounds ->
  parse_ticks decoder = Returned ticks ->
  quick_parse open_demo demo_path =
  Returned (player_statistics kf dmg (Some rounds)).
Proof.
  intros Ho Hk Hd Hr Ht.
  unfold quick_parse, construct. rewrite Ho.
  unfold parse_demo, try_except, bind, call, modify, get, ret.
  unfold Parser.init. simpl. rewrite Hk, Hd, Hr, Ht. simpl.
  f_equal. apply (player_statistics_assign (round_mapping rounds)).
Qed.

Lemma quick_parse_of_delivered_tables_witness :
  (fun _ : string =>
     Returned (Samples.decoder scenario_kills scenario_damages
                               scenario_rounds [])) "match.dem"%string
    = Returned (Samples.decoder scenario_kills scenario_damages
                                scenario_rounds []) /\
  parse_event_player_death
    (Samples.decoder scenario_kills scenario_damages scenario_rounds [])
    = Returned (frame scenario_kills) /\
  parse_event_player_hurt
    (Samples.decoder scenario_kills scenario_damages scenario_rounds [])
    = Returned scenario_damages /\
  parse_event_round_end
    (Samples.decoder scenario_kills scenario_damages scenario_rounds [])
    = Returned scenario_rounds /\
  parse_ticks
    (Samples.decoder scenario_kills scenario_damages scenario_rounds [])
    = Returned [] /\
  quick_parse
    (fun _ => Returned (Samples.decoder scenario_kills scenario_damages
                                        scenario_rounds []))
    "match.dem" = Returned scenario_stats.
Proof.
  do 5 (split; [reflexivity|]).
  exact (quick_parse_of_delivered_tables
           (fun _ => Returned (Samples.decoder scenario_kills scenario_damages
                                               scenario_rounds []))
           "match.dem"
           (Samples.decoder scenario_kills scenario_damages scenario_rounds [])
           (frame scenario_kills) scenario_damages scenario_rounds []
           eq_refl eq_refl eq_refl eq_refl eq_refl).
Defined.

End ParserExtra.

(* ================================================================== *)
(** * More on the statistics table *)
(* ================================================================== *)

Section GroupSums.
Context {K A : Type}.
Variable eqb : K -> K -> bool.
Hypothesis eqb_spec : forall a b, reflect (a = b) (eqb a b).
Variable key : A -> option K.

Lemma list_sum_pointwise (f g : K -> nat) (ks : list K) :
  list_sum (map (fun k => f k + g k)%nat ks) =
  (list_sum (map f ks) + list_sum (map g ks))%nat.
Proof. induction ks as [|k ks IH]; simpl; [reflexivity|]. rewrite IH. lia. Qed.

Lemma list_sum_no_hit (k0 : K) (ks : list K) :
  ~ In k0 ks ->
  list_sum (map (fun k => if eqb k0 k then 1 else 0)%nat ks) = 0%nat.
Proof.
  induction ks as [|k ks IH]; intros Hnotin; [reflexivity|]. simpl.
  destruct (eqb_spec k0 k) as [->|_].
  - exfalso. apply Hnotin. now left.
  - apply IH. intros H. apply Hnotin. now right.
Qed.

Lemma list_sum_one_hit (k0 : K) (ks : list K) :
  NoDup ks -> In k0 ks ->
  list_sum (map (fun k => if eqb k0 k then 1 else 0)%nat ks) = 1%nat.
Proof.
  induction 1 as [|k ks Hnotin Hnd IH]; intros Hin; [destruct Hin|].
  simpl. destruct (eqb_spec k0 k) as [->|Hne].
  - now rewrite list_sum_no_hit.
  - destruct Hin as [->|Hin]; [congruence|]. now apply IH.
Qed.

(** Over distinct labels that cover the column, the group sizes add
    up to the number of rows with a value in the column. *)
Lemma group_sizes_add_up (rows : list A) (ks : list K) :
  NoDup ks ->
  (forall k, In k (key_column key rows) -> In k ks) ->
  list_sum (map (fun k => length (group eqb key rows k)) ks) =
  length (key_column key rows).
Proof.
  intros Hnd. induction rows as [|r rows IH]; intros Hcover.
  - simpl. clear Hnd Hcover. induction ks; simpl; auto.
  - assert (Hstep : forall k, In k (key_column key rows) ->
                               In k (key_column key (r :: rows)))
      by (intros k Hk; unfold key_column; simpl; apply in_or_app; now right).
    specialize (IH (fun k Hk => Hcover k (Hstep k Hk))).
    destruct (key r) as [k0|] eqn:Ek.
    + assert (H1 : list_sum (map (fun k => if eqb k0 k then 1 else 0)%nat ks)
                   = 1%nat).
      { apply list_sum_one_hit; [exact Hnd|]. apply Hcover.
        unfold key_column. simpl. rewrite Ek. now left. }
      transitivity
        (list_sum (map (fun k => (if eqb k0 k then 1 else 0) +
                                 length (group eqb key rows k))%nat ks)).
      * f_equal. apply map_ext. intros k. unfold group. simpl. rewrite Ek.
        destruct (eqb k0 k); reflexivity.
      * rewrite list_sum_pointwise, H1, IH.
        unfold key_column. simpl. now rewrite Ek.
    + unfold key_column, group. simpl. rewrite Ek. exact IH.
Qed.
End GroupSums.

Section Int64.



Lemma wrap64_range (z : Z) : - 2 ^ 63 <= wrap64 z < 2 ^ 63.
Proof.
  unfold wrap64.
  pose proof (Z.mod_pos_bound (z + 2 ^ 63) (2 ^ 64) eq_refl). lia.
Qed.



End Int64.

Module StatsExtra.
Import Parser Claims Samples More MoreSamples StatsFacts.

Lemma key_column_length {A K : Type} (key : A -> option K) (rows : list A) :
  length (key_column key rows) = count_notna key rows.
Proof.
  unfold key_column, count_notna, count_true.
  induction rows as [|r rows IH]; simpl; [reflexivity|].
  destruct (key r); simpl; now rewrite IH.
Qed.

Lemma index_names (kf : KillFrame) (dmg : list DamageEvent)
  (rounds : option (list RoundEndEvent)) :
  map player_name (player_statistics kf dmg rounds) =
  uniq String.eqb
    (map fst (kills_stats (kill_rows kf)) ++
     map fst (deaths_stats (kill_rows kf)) ++
     map fst (assists_stats kf) ++ map fst (damage_stats dmg)).
Proof.
  unfold player_statistics. rewrite map_map. simpl. apply map_id.
Qed.

Lemma series_label {A B : Type} (key : A -> option string)
  (agg : list A -> B) (rows : list A) (name : string) :
  In name (map fst (groupby String.eqb String.leb key agg rows)) <->
  exists r, In r rows /\ key r = Some name.
Proof.
  rewrite groupby_keys, (group_labels_In String.eqb String.eqb_spec).
  apply key_column_In.
Qed.

(** X7: the statistics table has one line per player name, and a name
    has a line exactly when it occurs as the attacker or the victim of
    a kill, as the assister of a kill (when the kill table has the
    assister column), or as the attacker of a damage event. *)
Theorem one_line_per_player (kf : KillFrame) (dmg : list DamageEvent)
  (rounds : option (list RoundEndEvent)) :
  NoDup (map player_name (player_statistics kf dmg rounds)) /\
  (forall name,
     In name (map player_name (player_statistics kf dmg rounds)) <->
     (exists k, In k (kill_rows kf) /\ attacker_name k = Some name) \/
     (exists k, In k (kill_rows kf) /\ user_name k = Some name) \/
     (has_assister kf = true /\
      exists k, In k (kill_rows kf) /\ assister_name k = Some name) \/
     (exists d, In d dmg /\ d_attacker_name d = Some name)).
Proof.
  rewrite index_names. split; [apply (uniq_NoDup String.eqb String.eqb_spec)|].
  intros name. rewrite (uniq_In String.eqb String.eqb_spec), !in_app_iff.
  unfold kills_stats, deaths_stats, damage_stats, assists_stats.
  rewrite !series_label.
  destruct (has_assister kf).
  - rewrite series_label.
    assert (E : (exists r, In r (filter (fun k => match assister_name k with
                                                  | Some _ => true | None => false end)
                                        (kill_rows kf)) /\
                           assister_name r = Some name) <->
                (exists k, In k (kill_rows kf) /\ assister_name k = Some name)).
    { split; intros (r & Hr & E).
      - apply filter_In in Hr as [Hr _]. eauto.
      - exists r. split; [|exact E]. apply filter_In. now rewrite E. }
    rewrite E. intuition.
  - simpl. intuition. discriminate.
Qed.

(** X8: the kills of all lines add up to the number of kill rows with
    an attacker, and the deaths of all lines to the number of kill rows
    with a victim: no kill is counted twice or lost. *)
Theorem kills_and_deaths_add_up (kf : KillFrame) (dmg : list DamageEvent)
  (rounds : option (list RoundEndEvent)) :
  list_sum (map kills (player_statistics kf dmg rounds)) =
    count_notna attacker_name (kill_rows kf) /\
  list_sum (map deaths (player_statistics kf dmg rounds)) =
    count_notna user_name (kill_rows kf).
Proof.
  assert (Hnd : NoDup (map player_name (player_statistics kf dmg rounds)))
    by (rewrite index_names; apply (uniq_NoDup String.eqb String.eqb_spec)).
  assert (Hcover : forall name,
             In name (map fst (kills_stats (kill_rows kf))) \/
             In name (map fst (deaths_stats (kill_rows kf))) ->
             In name (map player_name (player_statistics kf dmg rounds))).
  { intros name H. rewrite index_names.
    apply (uniq_In String.eqb String.eqb_spec). rewrite !in_app_iff. tauto. }
  assert (Hrow : forall r, In r (player_statistics kf dmg rounds) ->
             kills r = length (group String.eqb attacker_name (kill_rows kf)
                                     (player_name r)) /\
             deaths r = length (group String.eqb user_name (kill_rows kf)
                                      (player_name r))).
  { intros r Hr. apply stat_line_counts in Hr as (Hk & _ & Hd & _).
    split; [exact Hk|exact Hd]. }
  split.
  - rewrite <- key_column_length.
    rewrite <- (group_sizes_add_up String.eqb String.eqb_spec attacker_name
                  (kill_rows kf)
                  (map player_name (player_statistics kf dmg rounds)) Hnd).
    + rewrite map_map. f_equal. apply map_ext_in. intros r Hr.
      apply (proj1 (Hrow r Hr)).
    + intros k Hk. apply Hcover. left. unfold kills_stats.
      rewrite groupby_keys.
      now apply (group_labels_In String.eqb String.eqb_spec).
  - rewrite <- key_column_length.
    rewrite <- (group_sizes_add_up String.eqb String.eqb_spec user_name
                  (kill_rows kf)
                  (map player_name (player_statistics kf dmg rounds)) Hnd).
    + rewrite map_map. f_equal. apply map_ext_in. intros r Hr.
      apply (proj2 (Hrow r Hr)).
    + intros k Hk. apply Hcover. right. unfold deaths_stats.
      rewrite groupby_keys.
      now apply (group_labels_In String.eqb String.eqb_spec).
Qed.




(** X10: with at least one round end, or without a round table, the
    ADR of every line is the finite quotient of its total damage by the
    number of rounds (by 1 without a round table). *)
Theorem adr_is_damage_per_round (kf : KillFrame) (dmg : list DamageEvent)
  (rounds : option (list RoundEndEvent)) (r : PlayerStatLine) :
  rounds <> Some [] ->
  In r (player_statistics kf dmg rounds) ->
  adr r = Fin (inject_Z (total_damage r) /
               inject_Z (Z.of_nat (match rounds with
                                   | Some l => length l
                                   | None => 1
                                   end))).
Proof.
  intros Hne Hr. apply stat_line_counts in Hr as (_ & _ & _ & _ & _ & Hadr).
  rewrite Hadr. unfold fdiv, of_Z, of_nat, total_rounds_of.
  rewrite qsign_of_nat_pos; [reflexivity|].
  destruct rounds as [[|e l]|]; simpl; [congruence|lia|lia].
Qed.

Lemma adr_is_damage_per_round_witness :
  Some scenario_rounds <> Some [] /\
  In victim_line scenario_stats /\
  adr victim_line =
    Fin (inject_Z (total_damage victim_line) /
         inject_Z (Z.of_nat (length scenario_rounds))).
Proof.
  assert (H0 : Some scenario_rounds <> Some (@nil RoundEndEvent))
    by discriminate.
  assert (H : In victim_line scenario_stats)
    by (vm_compute; right; left; reflexivity).
  split; [exact H0|]. split; [exact H|].
  exact (adr_is_damage_per_round (frame scenario_kills) scenario_damages
           (Some scenario_rounds) victim_line H0 H).
Defined.

End StatsExtra.

(* ================================================================== *)
(** * More on multi-kills, the round table and the positions *)
(* ================================================================== *)

Module TablesExtra.
Import Parser Claims Samples More MoreSamples MultiKillFacts.

(** X11: the detector misses nothing: in a kill table with assigned
    rounds every player with at least two kills in a round has an event
    for this round, with the number of these kills.  Without the round
    column the result is empty. *)
Theorem multi_kills_complete (self : CS2DemoParser) (kf : KillFrame) :
  df_kills self = Some kf ->
  (has_round kf = false -> get_multi_kills self = []) /\
  (has_round kf = true ->
   forall p r,
     (2 <= length (kills_in_round p r (kill_rows kf)))%nat ->
     exists e,
       In (p, e) (entries (get_multi_kills self)) /\
       round_num e = r /\
       kill_count e = length (kills_in_round p r (kill_rows kf))).
Proof.
  intros Hk. unfold get_multi_kills. rewrite Hk.
  split; intros Hr; rewrite Hr; simpl; [reflexivity|].
  intros p r Hlen.
  pose proof (multi_kill_loop_entries (multi_kill_rounds (kill_rows kf)) [])
    as Hperm. simpl in Hperm.
  set (g := kills_in_round p r (kill_rows kf)) in *.
  exists {| round_num := r; kill_count := length g; mk_tick := min_tick g |}.
  split; [|split; reflexivity].
  apply (Permutation_in _ (Permutation_sym Hperm)).
  apply in_map_iff. exists ((p, r), (length g, min_tick g)).
  split; [reflexivity|].
  unfold multi_kill_rounds. apply filter_In. split.
  - unfold kills_per_round, groupby. apply in_map_iff. exists (p, r).
    rewrite group_player_round. split; [reflexivity|].
    apply (group_labels_In pair_eqb pair_eqb_spec).
    destruct g as [|k g'] eqn:Eg; [simpl in Hlen; lia|].
    apply key_column_In. exists k.
    assert (Hin : In k (group pair_eqb player_round (kill_rows kf) (p, r)))
      by (rewrite group_player_round; fold g; rewrite Eg; now left).
    now apply (group_In pair_eqb pair_eqb_spec) in Hin.
  - cbn [fst snd]. now apply Nat.leb_le.
Qed.

Lemma multi_kills_complete_witness :
  df_kills (parsed scenario_kills scenario_damages scenario_rounds []) =
    Some {| kill_rows :=
              map (assign (round_mapping scenario_rounds)) scenario_kills;
            has_round := true; has_assister := true |} /\
  (2 <= length (kills_in_round "A" 1
                  (map (assign (round_mapping scenario_rounds)) scenario_kills)))%nat /\
  exists e,
    In ("A"%string, e) (entries scenario_multi_kills) /\
    round_num e = 1%nat /\
    kill_count e =
      length (kills_in_round "A" 1
                (map (assign (round_mapping scenario_rounds)) scenario_kills)).
Proof.
  assert (Hk : df_kills (parsed scenario_kills scenario_damages scenario_rounds [])
               = Some {| kill_rows :=
                           map (assign (round_mapping scenario_rounds)) scenario_kills;
                         has_round := true; has_assister := true |})
    by reflexivity.
  assert (Hl : (2 <= length (kills_in_round "A" 1
                  (map (assign (round_mapping scenario_rounds)) scenario_kills)))%nat)
    by (vm_compute; lia).
  split; [exact Hk|]. split; [exact Hl|].
  exact (proj2 (multi_kills_complete _ _ Hk) eq_refl "A"%string 1%nat Hl).
Defined.

Lemma round_pair_eqb_spec (a b : nat * string) :
  reflect (a = b) (round_pair_eqb a b).
Proof.
  destruct a as [n s], b as [n' s']. unfold round_pair_eqb. simpl.
  destruct (Nat.eqb_spec n n') as [->|Hn]; simpl.
  - destruct (String.eqb_spec s s') as [->|Hs]; constructor; congruence.
  - constructor. congruence.
Qed.

Lemma group_round_attacker (df : list KillEvent) (r : nat) (p : string) :
  group round_pair_eqb round_attacker df (r, p) = kills_in_round p r df.
Proof.
  unfold group, kills_in_round. apply filter_ext. intros k.
  unfold round_attacker, name_is, round_pair_eqb.
  destruct (attacker_name k); simpl; [apply andb_comm|reflexivity].
Qed.

Lemma group_round_victim (df : list KillEvent) (r : nat) (p : string) :
  group round_pair_eqb round_victim df (r, p) = deaths_in_round p r df.
Proof.
  unfold group, deaths_in_round. apply filter_ext. intros k.
  unfold round_victim, name_is, round_pair_eqb.
  destruct (user_name k); simpl; [apply andb_comm|reflexivity].
Qed.

(** The count stored for a label of a round series, 0 when absent. *)
Lemma round_series_count (key : KillEvent -> option (nat * string))
  (df : list KillEvent) (k : nat * string) :
  match lookup round_pair_eqb k
          (groupby round_pair_eqb round_pair_leb key (@length KillEvent) df) with
  | Some n => n
  | None => 0%nat
  end = length (group round_pair_eqb key df k) /\
  (mem round_pair_eqb k
     (map fst (groupby round_pair_eqb round_pair_leb key (@length KillEvent) df))
   = true <-> (1 <= length (group round_pair_eqb key df k))%nat).
Proof.
  rewrite (lookup_groupby round_pair_eqb round_pair_eqb_spec), groupby_keys.
  rewrite (mem_In round_pair_eqb round_pair_eqb_spec),
          (group_labels_In round_pair_eqb round_pair_eqb_spec).
  destruct (mem round_pair_eqb k (key_column key df)) eqn:E.
  - apply (mem_In round_pair_eqb round_pair_eqb_spec) in E.
    split; [reflexivity|]. split; [|intros _; exact E]. intros _.
    pose proof (group_nonempty round_pair_eqb round_pair_eqb_spec key df k E).
    destruct (group round_pair_eqb key df k); [congruence|simpl; lia].
  - assert (Hn : ~ In k (key_column key df)).
    { intros H. apply (mem_In round_pair_eqb round_pair_eqb_spec) in H.
      congruence. }
    rewrite (group_empty round_pair_eqb round_pair_eqb_spec key df k Hn).
    split; [reflexivity|]. split; [tauto|simpl; lia].
Qed.

(** X12: every line of the round-by-round table belongs to a round and
    a player with at least one kill or death in this round.  A line
    with kills carries the player's name and the player's numbers of
    kills and of deaths in the round; a line without kills carries 0 in
    place of the name: the frame-wide [fillna(0)] has filled the
    missing attacker name before [fillna(user_name)] could. *)
Theorem round_table_lines (df : list KillEvent) (r : RoundStatLine) :
  In r (round_by_round_stats df) ->
  (1 <= rs_kills r + rs_deaths r)%nat /\
  (rs_player_name r = FilledZero <-> rs_kills r = 0%nat) /\
  (forall p, rs_player_name r = Name p ->
     rs_kills r = length (kills_in_round p (rs_round r) df) /\
     rs_deaths r = length (deaths_in_round p (rs_round r) df)).
Proof.
  unfold round_by_round_stats. rewrite sort_values_In, in_map_iff.
  intros ([rnd p] & <- & Hkey).
  apply sort_values_In, (uniq_In round_pair_eqb round_pair_eqb_spec),
        in_app_iff in Hkey.
  unfold round_stat_line. cbn [rs_kills rs_deaths rs_player_name rs_round fst snd].
  unfold round_kills, round_deaths in *.
  destruct (round_series_count round_attacker df (rnd, p)) as [Hk Hmk].
  destruct (round_series_count round_victim df (rnd, p)) as [Hd Hmd].
  rewrite Hk, Hd. rewrite group_round_attacker, group_round_victim in *.
  rewrite <- !(mem_In round_pair_eqb round_pair_eqb_spec) in Hkey.
  destruct (mem round_pair_eqb (rnd, p) _) eqn:E in |- *.
  - assert (1 <= length (kills_in_round p rnd df))%nat by now apply Hmk.
    split; [lia|]. split; [split; [discriminate|lia]|].
    intros q Hq. injection Hq as <-. auto.
  - assert (Hz : length (kills_in_round p rnd df) = 0%nat).
    { destruct (length (kills_in_round p rnd df)) eqn:El; [reflexivity|].
      assert (H : mem round_pair_eqb (rnd, p)
                    (map fst (groupby round_pair_eqb round_pair_leb
                                round_attacker (@length KillEvent) df)) = true)
        by (apply Hmk; lia).
      congruence. }
    rewrite Hz. split; [|split; [tauto|discriminate]].
    destruct Hkey as [Hkey|Hkey]; [congruence|]. apply Hmd in Hkey. lia.
Qed.

Lemma round_table_lines_witness :
  In round_one_of_A (round_by_round_stats scenario_assigned) /\
  ((1 <= rs_kills round_one_of_A + rs_deaths round_one_of_A)%nat /\
   (rs_player_name round_one_of_A = FilledZero <->
    rs_kills round_one_of_A = 0%nat) /\
   (forall p, rs_player_name round_one_of_A = Name p ->
      rs_kills round_one_of_A =
        length (kills_in_round p (rs_round round_one_of_A) scenario_assigned) /\
      rs_deaths round_one_of_A =
        length (deaths_in_round p (rs_round round_one_of_A) scenario_assigned))).
Proof.
  assert (H : In round_one_of_A (round_by_round_stats scenario_assigned))
    by (vm_compute; right; right; left; reflexivity).
  split; [exact H|].
  exact (round_table_lines scenario_assigned round_one_of_A H).
Defined.

(** The nearest row of a table that starts with [best]. *)
Lemma closest_nearest (event_tick : Z) (rows : list TickRow) :
  forall best,
    In (closest event_tick best rows) (best :: rows) /\
    (forall row, In row (best :: rows) ->
       tick_distance (closest event_tick best rows) event_tick <=
       tick_distance row event_tick).
Proof.
  induction rows as [|r rows IH]; intros best; simpl.
  - split; [now left|]. intros row [<-|[]]. lia.
  - destruct (tick_distance r event_tick <? tick_distance best event_tick)
      eqn:E.
    + apply Z.ltb_lt in E. destruct (IH r) as [Hin Hmin]. split.
      * destruct Hin as [<-|Hin]; auto.
      * intros row [<-|[<-|Hrow]].
        -- specialize (Hmin r (or_introl eq_refl)). lia.
        -- apply Hmin. now left.
        -- apply Hmin. now right.
    + apply Z.ltb_ge in E. destruct (IH best) as [Hin Hmin]. split.
      * destruct Hin as [<-|Hin]; auto.
      * intros row [<-|[<-|Hrow]].
        -- apply Hmin. now left.
        -- specialize (Hmin best (or_introl eq_refl)). lia.
        -- apply Hmin. now right.
Qed.

Lemma positions_unfold (self : CS2DemoParser) (player_name event_type : string)
  (first : TickRow) (rest : list TickRow) (kf : KillFrame) :
  df_ticks self = Some (first :: rest) -> df_kills self = Some kf ->
  get_positions_for_heatmap self player_name event_type =
  flat_map (fun event_tick =>
              let closest_tick := closest event_tick first rest in
              if tick_distance closest_tick event_tick <=? 32
              then [position_of closest_tick] else [])
           (map k_tick (events_of player_name event_type (kill_rows kf))).
Proof.
  intros Ht Hk. unfold get_positions_for_heatmap, events_of.
  rewrite Ht, Hk.
  destruct (kill_rows kf) as [|k l]; [|].
  - destruct (String.eqb event_type "kills"); [reflexivity|].
    destruct (String.eqb event_type "deaths"); reflexivity.
  - destruct (String.eqb event_type "kills"); [reflexivity|].
    destruct (String.eqb event_type "deaths"); reflexivity.
Qed.

(** X13: every position returned for a player and an event type is the
    position of a row of the tick table that is within 32 ticks of one
    of the player's events of this type and that no row of the table is
    nearer to; and there are at most as many positions as events. *)
Theorem positions_are_nearest_samples (self : CS2DemoParser)
  (player_name event_type : string) (ticks : list TickRow) (kf : KillFrame) :
  df_ticks self = Some ticks -> df_kills self = Some kf ->
  (length (get_positions_for_heatmap self player_name event_type) <=
   length (events_of player_name event_type (kill_rows kf)))%nat /\
  (forall pos,
     In pos (get_positions_for_heatmap self player_name event_type) ->
     exists k row,
       In k (events_of player_name event_type (kill_rows kf)) /\
       In row ticks /\ pos = position_of row /\
       tick_distance row (k_tick k) <= 32 /\
       (forall row', In row' ticks ->
          tick_distance row (k_tick k) <= tick_distance row' (k_tick k))).
Proof.
  intros Ht Hk. destruct ticks as [|first rest].
  - unfold get_positions_for_heatmap. rewrite Ht. simpl.
    split; [lia|intros pos []].
  - rewrite (positions_unfold self player_name event_type first rest kf Ht Hk).
    split.
    + induction (events_of player_name event_type (kill_rows kf)) as [|k l IH];
        [simpl; lia|].
      cbn [map flat_map length]. rewrite length_app. cbv zeta in *.
      destruct (tick_distance _ _ <=? 32); cbn [length]; lia.
    + intros pos Hpos. apply in_flat_map in Hpos as (t & Ht' & Hpos).
      apply in_map_iff in Ht' as (k & <- & Hk').
      cbv zeta in Hpos.
      destruct (tick_distance (closest (k_tick k) first rest) (k_tick k) <=? 32)
        eqn:E; [|destruct Hpos].
      destruct Hpos as [<-|[]]. apply Z.leb_le in E.
      destruct (closest_nearest (k_tick k) rest first) as [Hin Hmin].
      exists k, (closest (k_tick k) first rest). auto.
Qed.

Lemma positions_are_nearest_samples_witness :
  df_ticks (parsed scenario_kills scenario_damages scenario_rounds scenario_ticks)
    = Some scenario_ticks /\
  df_kills (parsed scenario_kills scenario_damages scenario_rounds scenario_ticks)
    = Some {| kill_rows := scenario_assigned; has_round := true;
              has_assister := true |} /\
  (length (get_positions_for_heatmap
             (parsed scenario_kills scenario_damages scenario_rounds scenario_ticks)
             "A" "kills") <=
   length (events_of "A" "kills" scenario_assigned))%nat.
Proof.
  assert (Ht : df_ticks (parsed scenario_kills scenario_damages scenario_rounds
                                scenario_ticks) = Some scenario_ticks)
    by reflexivity.
  assert (Hk : df_kills (parsed scenario_kills scenario_damages scenario_rounds
                                scenario_ticks)
               = Some {| kill_rows := scenario_assigned; has_round := true;
                         has_assister := true |}) by reflexivity.
  split; [exact Ht|]. split; [exact Hk|].
  exact (proj1 (positions_are_nearest_samples _ "A" "kills" _ _ Ht Hk)).
Defined.

(** The positions at the scenario: the first two kills of A, at ticks
    100 and 150, are matched with the sample at tick 120; the kill at
    tick 3000 has no sample within 32 ticks and is dropped. *)
Example scenario_positions :
  get_positions_for_heatmap
    (parsed scenario_kills scenario_damages scenario_rounds scenario_ticks)
    "A" "kills" =
  [{| x := 5; y := 6; z := 7 |}; {| x := 5; y := 6; z := 7 |}].
Proof. reflexivity. Qed.

(** X14: no position is returned for an event type other than 'kills'
    and 'deaths', nor when every row of the tick table is more than 32
    ticks away from every event of the player. *)
Theorem positions_empty (self : CS2DemoParser) (player_name event_type : string) :
  (event_type <> "kills"%string /\ event_type <> "deaths"%string) \/
  (forall ticks kf k row,
     df_ticks self = Some ticks -> df_kills self = Some kf ->
     In k (events_of player_name event_type (kill_rows kf)) ->
     In row ticks -> 32 < tick_distance row (k_tick k)) ->
  get_positions_for_heatmap self player_name event_type = [].
Proof.
  intros H.
  destruct (df_ticks self) as [[|first rest]|] eqn:Ht;
    try (unfold get_positions_for_heatmap; rewrite Ht; reflexivity).
  destruct (df_kills self) as [kf|] eqn:Hk;
    [|unfold get_positions_for_heatmap; rewrite Ht, Hk; reflexivity].
  rewrite (positions_unfold self player_name event_type first rest kf Ht Hk).
  destruct H as [[H1 H2]|H].
  - unfold events_of.
    destruct (String.eqb_spec event_type "kills"); [congruence|].
    destruct (String.eqb_spec event_type "deaths"); [congruence|].
    reflexivity.
  - specialize (H (first :: rest) kf).
    induction (events_of player_name event_type (kill_rows kf)) as [|k l IH];
      [reflexivity|].
    cbn [map flat_map]. cbv zeta in *.
    destruct (closest_nearest (k_tick k) rest first) as [Hin _].
    pose proof (H k _ eq_refl eq_refl (or_introl eq_refl) Hin) as Hfar.
    apply Z.leb_gt in Hfar. rewrite Hfar. cbn [app].
    apply IH. intros k' row _ _ Hk' Hrow.
    apply (H k' row eq_refl eq_refl); [now right|exact Hrow].
Qed.

Lemma positions_empty_witness :
  ((("assists" <> "kills")%string /\ ("assists" <> "deaths")%string) \/
   (forall ticks kf k row,
      df_ticks (parsed scenario_kills scenario_damages scenario_rounds
                       scenario_ticks) = Some ticks ->
      df_kills (parsed scenario_kills scenario_damages scenario_rounds
                       scenario_ticks) = Some kf ->
      In k (events_of "A" "assists" (kill_rows kf)) ->
      In row ticks -> 32 < tick_distance row (k_tick k))) /\
  get_positions_for_heatmap
    (parsed scenario_kills scenario_damages scenario_rounds scenario_ticks)
    "A" "assists" = [].
Proof.
  assert (H : (("assists" <> "kills")%string /\ ("assists" <> "deaths")%string) \/
              (forall ticks kf k row,
                 df_ticks (parsed scenario_kills scenario_damages scenario_rounds
                                  scenario_ticks) = Some ticks ->
                 df_kills (parsed scenario_kills scenario_damages scenario_rounds
                                  scenario_ticks) = Some kf ->
                 In k (events_of "A" "assists" (kill_rows kf)) ->
                 In row ticks -> 32 < tick_distance row (k_tick k)))
    by (left; split; discriminate).
  split; [exact H|].
  exact (positions_empty _ "A" "assists" H).
Defined.

End TablesExtra.

(* ================================================================== *)
(** * More on dicts and on the rating update *)
(* ================================================================== *)

Section DictFacts.
Context {K V : Type}.
Variable eqb : K -> K -> bool.
Hypothesis eqb_spec : forall a b, reflect (a = b) (eqb a b).

Lemma lookup_dict_set_eq (k : K) (v : V) (d : list (K * V)) :
  lookup eqb k (dict_set eqb k v d) = Some v.
Proof.
  induction d as [|[k' v'] d IH]; simpl.
  - now rewrite (eqb_refl_true eqb eqb_spec).
  - destruct (eqb k' k) eqn:E; simpl; rewrite E; [reflexivity|exact IH].
Qed.

Lemma lookup_dict_set_ne (k k' : K) (v : V) (d : list (K * V)) :
  k' <> k -> lookup eqb k' (dict_set eqb k v d) = lookup eqb k' d.
Proof.
  intros Hne. induction d as [|[k0 v0] d IH]; simpl.
  - destruct (eqb_spec k k'); [congruence|reflexivity].
  - destruct (eqb_spec k0 k) as [->|H0]; simpl.
    + destruct (eqb_spec k k'); [congruence|reflexivity].
    + destruct (eqb k0 k'); [reflexivity|exact IH].
Qed.

Lemma keys_dict_set (k q : K) (v : V) (d : list (K * V)) :
  In q (map fst (dict_set eqb k v d)) <-> q = k \/ In q (map fst d).
Proof.
  induction d as [|[k0 v0] d IH]; simpl.
  - intuition.
  - destruct (eqb_spec k0 k) as [->|H0]; simpl; [intuition|].
    rewrite IH. intuition.
Qed.

Lemma lookup_Some_In (k : K) (d : list (K * V)) :
  In k (map fst d) <-> exists v, lookup eqb k d = Some v.
Proof.
  induction d as [|[k0 v0] d IH]; simpl.
  - split; [intros []|intros [v H]; discriminate].
  - destruct (eqb_spec k0 k) as [->|H0].
    + split; eauto.
    + rewrite <- IH. intuition.
Qed.
Lemma keys_dict_set_list (k : K) (v : V) (d : list (K * V)) :
  map fst (dict_set eqb k v d) =
  if mem eqb k (map fst d) then map fst d else map fst d ++ [k].
Proof.
  unfold mem. induction d as [|[k0 v0] d IH]; simpl; [reflexivity|].
  destruct (eqb k0 k); simpl; [reflexivity|].
  rewrite IH. destruct (existsb (fun x => eqb x k) (map fst d)); reflexivity.
Qed.

Lemma keys_dict_set_NoDup (k : K) (v : V) (d : list (K * V)) :
  NoDup (map fst d) -> NoDup (map fst (dict_set eqb k v d)).
Proof.
  intros H. rewrite keys_dict_set_list.
  destruct (mem eqb k (map fst d)) eqn:E; [exact H|].
  apply NoDup_app; [exact H|repeat constructor; intros []|].
  intros q Hq [<-|[]].
  apply (mem_In eqb eqb_spec) in Hq. congruence.
Qed.
End DictFacts.

Module EloExtra.
Import Parser Rating Claims Samples More.
Local Open Scope R_scope.

Lemma Rpower_10_pos (x : R) : 0 < Rpower 10 x.
Proof. unfold Rpower. apply exp_pos. Qed.

Lemma expected_score_bounds (a b : R) : 0 < calculate_expected_score a b < 1.
Proof.
  unfold calculate_expected_score.
  pose proof (Rpower_10_pos ((b - a) / 400)) as Hp.
  set (p := Rpower 10 ((b - a) / 400)) in *. split.
  - apply Rdiv_lt_0_compat; lra.
  - apply (Rmult_lt_reg_r (1 + p)); [lra|].
    unfold Rdiv. rewrite Rmult_assoc, Rinv_l by lra. lra.
Qed.

(** X16: one row of the table moves the rating of its player, and of
    no other player: with a non-negative [k_factor] and a non-negative
    K/D the rating of the row's player changes by at most [k_factor],
    every other lookup gives what it gave before, and no key is added
    when the player is stored. *)
Theorem update_player_bounded (k : R) (ratings : list (string * R))
  (row : RatingInput) :
  0 <= k -> 0 <= ri_kd_ratio row ->
  In (ri_player_name row) (map fst ratings) ->
  Rabs (rating_of (ri_player_name row) (update_player k ratings row) -
        rating_of (ri_player_name row) ratings) <= k /\
  (forall q, q <> ri_player_name row ->
             lookup String.eqb q (update_player k ratings row) =
             lookup String.eqb q ratings) /\
  (forall q, In q (map fst (update_player k ratings row)) <->
             In q (map fst ratings)).
Proof.
  intros Hk Hkd Hin. unfold update_player.
  set (p := ri_player_name row) in *.
  set (e := calculate_expected_score (rating_of p ratings)
              (sum_values ratings / INR (length ratings))).
  split; [|split].
  - unfold rating_of at 1.
    rewrite (lookup_dict_set_eq String.eqb String.eqb_spec).
    pose proof (expected_score_bounds (rating_of p ratings)
                  (sum_values ratings / INR (length ratings))) as He.
    fold e in He.
    assert (Hperf : 0 <= Rmin (ri_kd_ratio row / 2) 1 <= 1).
    { unfold Rmin. destruct (Rle_dec (ri_kd_ratio row / 2) 1); lra. }
    replace (rating_of p ratings + k * (Rmin (ri_kd_ratio row / 2) 1 - e) -
             rating_of p ratings)
      with (k * (Rmin (ri_kd_ratio row / 2) 1 - e)) by lra.
    rewrite Rabs_mult, (Rabs_right k) by lra.
    rewrite <- (Rmult_1_r k) at 2.
    apply Rmult_le_compat_l; [exact Hk|].
    apply Rabs_le. lra.
  - intros q Hq.
    now apply (lookup_dict_set_ne String.eqb String.eqb_spec).
  - intros q. rewrite (keys_dict_set String.eqb String.eqb_spec).
    split; [intros [->|H]; auto|auto].
Qed.

Lemma update_player_bounded_witness :
  0 <= 32 /\ 0 <= ri_kd_ratio lone_row /\
  In (ri_player_name lone_row) (map fst [("A"%string, 1500)]) /\
  Rabs (rating_of (ri_player_name lone_row)
                  (update_player 32 [("A"%string, 1500)] lone_row) -
        rating_of (ri_player_name lone_row) [("A"%string, 1500)]) <= 32.
Proof.
  assert (H1 : 0 <= 32) by lra.
  assert (H2 : 0 <= ri_kd_ratio lone_row) by (simpl; lra).
  assert (H3 : In (ri_player_name lone_row) (map fst [("A"%string, 1500)]))
    by (simpl; auto).
  split; [exact H1|]. split; [exact H2|]. split; [exact H3|].
  exact (proj1 (update_player_bounded 32 [("A"%string, 1500)] lone_row H1 H2 H3)).
Defined.

Lemma register_player_facts (base : R) (d : list (string * R)) (p : string) :
  (forall q, In q (map fst (register_player base d p)) <->
             q = p \/ In q (map fst d)) /\
  (forall q, q <> p -> lookup String.eqb q (register_player base d p) =
                       lookup String.eqb q d) /\
  (NoDup (map fst d) -> NoDup (map fst (register_player base d p))).
Proof.
  unfold register_player.
  destruct (mem String.eqb p (map fst d)) eqn:E.
  - apply (mem_In String.eqb String.eqb_spec) in E.
    repeat split; auto. intros [->|H]; auto.
  - split; [|split].
    + intros q. apply (keys_dict_set String.eqb String.eqb_spec).
    + intros q Hq. now apply (lookup_dict_set_ne String.eqb String.eqb_spec).
    + apply (keys_dict_set_NoDup String.eqb String.eqb_spec).
Qed.

Lemma register_loop (base : R) (names : list string) :
  forall d,
    (forall q, In q (map fst (fold_left (register_player base) names d)) <->
               In q (map fst d) \/ In q names) /\
    (forall q, ~ In q names ->
               lookup String.eqb q (fold_left (register_player base) names d) =
               lookup String.eqb q d) /\
    (NoDup (map fst d) ->
     NoDup (map fst (fold_left (register_player base) names d))).
Proof.
  induction names as [|p names IH]; intros d; simpl.
  - repeat split; tauto.
  - destruct (IH (register_player base d p)) as (H1 & H2 & H3).
    destruct (register_player_facts base d p) as (R1 & R2 & R3).
    split; [|split].
    + intros q. rewrite H1, R1. intuition.
    + intros q Hq. rewrite H2 by tauto. apply R2. intros ->. tauto.
    + intros Hnd. apply H3, R3, Hnd.
Qed.

Lemma update_loop (k : R) (rows : list RatingInput) :
  forall d,
    (forall q, In q (map fst (fold_left (update_player k) rows d)) <->
               In q (map fst d) \/ In q (map ri_player_name rows)) /\
    (forall q, ~ In q (map ri_player_name rows) ->
               lookup String.eqb q (fold_left (update_player k) rows d) =
               lookup String.eqb q d) /\
    (NoDup (map fst d) ->
     NoDup (map fst (fold_left (update_player k) rows d))).
Proof.
  induction rows as [|row rows IH]; intros d; simpl.
  - repeat split; tauto.
  - destruct (IH (update_player k d row)) as (H1 & H2 & H3).
    unfold update_player in *. split; [|split].
    + intros q. rewrite H1, (keys_dict_set String.eqb String.eqb_spec).
      intuition.
    + intros q Hq. rewrite H2 by tauto.
      apply (lookup_dict_set_ne String.eqb String.eqb_spec).
      intros ->. tauto.
    + intros Hnd. apply H3.
      now apply (keys_dict_set_NoDup String.eqb String.eqb_spec).
Qed.

(** X17: after an update the calculator stores a rating for exactly
    the players it stored before and the players of the table, each
    once; a player who is not in the table keeps the stored rating;
    and a new calculator has no rating for anybody. *)
Theorem update_ratings_registers (self : PlayerRatingCalculator R)
  (player_stats : list RatingInput) :
  let after := snd (update_ratings self player_stats) in
  (forall q,
     (exists r, get_player_rating after q = Some r) <->
     (exists r, get_player_rating self q = Some r) \/
     In q (map ri_player_name player_stats)) /\
  (forall q, ~ In q (map ri_player_name player_stats) ->
             get_player_rating after q = get_player_rating self q) /\
  (NoDup (map fst (player_ratings self)) ->
   NoDup (map fst (player_ratings after))) /\
  (forall (k base : R) q, get_player_rating (Rating.init k base) q = None).
Proof.
  unfold update_ratings, get_player_rating. simpl.
  destruct (register_loop (base_rating self) (map ri_player_name player_stats)
              (player_ratings self)) as (R1 & R2 & R3).
  destruct (update_loop (k_factor self) player_stats
              (fold_left (register_player (base_rating self))
                         (map ri_player_name player_stats)
                         (player_ratings self))) as (U1 & U2 & U3).
  split; [|split; [|split]].
  - intros q.
    rewrite <- !(lookup_Some_In String.eqb String.eqb_spec).
    rewrite U1, R1. tauto.
  - intros q Hq. rewrite U2, R2 by exact Hq. reflexivity.
  - intros Hnd. apply U3, R3, Hnd.
  - reflexivity.
Qed.

End EloExtra.

(* ================================================================== *)
(** * More on the component scores and the report *)
(* ================================================================== *)

Section RankBound.
Context {A : Type}.
Variable cmp : A -> A -> comparison.
Variable ordered : A -> Prop.
Hypothesis cmp_antisym :
  forall a b, ordered a -> ordered b -> cmp a b = CompOpp (cmp b a).
Hypothesis cmp_trans :
  forall a b c, ordered a -> ordered b -> ordered c ->
                cmp a b = Gt -> cmp b c = Gt -> cmp a c = Gt.
Hypothesis cmp_eq_l :
  forall a b c, ordered a -> ordered b -> ordered c ->
                cmp a b = Eq -> cmp a c = cmp b c.

Lemma insert_level_length (v : A) (ls : list A) :
  (length (insert_level cmp v ls) <= S (length ls))%nat.
Proof.
  induction ls as [|l ls IH]; simpl; [lia|].
  destruct (cmp v l); simpl; lia.
Qed.

Lemma levels_length (column : list A) :
  (length (levels cmp column) <= length column)%nat.
Proof.
  induction column as [|v column IH]; simpl; [lia|].
  pose proof (insert_level_length v (levels cmp column)). lia.
Qed.

Lemma above_or_level_length (v : A) (ls : list A) :
  (length (filter (above cmp v) ls) + length (filter (level_of cmp v) ls)
   <= length ls)%nat.
Proof.
  induction ls as [|l ls IH]; simpl; [lia|].
  unfold above at 1, level_of at 1. destruct (cmp l v); simpl; lia.
Qed.

(** The dense rank of a value of the column is at most the length of
    the column. *)
Lemma dense_rank_le_length (column : list A) (v : A) :
  Forall ordered column -> In v column ->
  (1 <= dense_rank cmp column v <= length column)%nat.
Proof.
  intros Hc Hv. unfold dense_rank. split; [lia|].
  assert (Hov : ordered v) by (rewrite Forall_forall in Hc; auto).
  pose proof (one_level cmp ordered cmp_antisym cmp_eq_l v (levels cmp column)
                Hov (levels_ordered cmp ordered column Hc)
                (levels_sorted cmp ordered cmp_antisym cmp_trans column Hc)
                (levels_has cmp ordered cmp_antisym column v Hc Hv)) as Hone.
  pose proof (above_or_level_length v (levels cmp column)).
  pose proof (levels_length column). lia.
Qed.
End RankBound.

Module ReportExtra.
Import Parser Rating Claims Samples More MoreSamples StatsFacts RatingFacts.

(** Rounding to the nearest integer stays between integer bounds. *)
Lemma rint_between (y : Q) (a b : Z) :
  (inject_Z a <= y)%Q -> (y <= inject_Z b)%Q -> a <= rint y <= b.
Proof.
  intros Ha Hb. unfold rint.
  assert (Hlo : a <= Qfloor y)
    by (rewrite <- (Qfloor_Z a); now apply Qfloor_resp_le).
  assert (Hhi : Qfloor y <= b)
    by (rewrite <- (Qfloor_Z b); now apply Qfloor_resp_le).
  pose proof (Qfloor_le y) as Hfl.
  assert (Hup : (1 # 2 <= y - inject_Z (Qfloor y))%Q -> Qfloor y + 1 <= b).
  { intros Hhalf.
    destruct (Z.eq_dec (Qfloor y) b) as [E|E]; [|lia].
    rewrite E in Hhalf. exfalso. clear - Hhalf Hb.
    revert Hhalf Hb. generalize (inject_Z b). intros B Hhalf Hb. Lqa.lra. }
  destruct (Qcompare_spec (y - inject_Z (Qfloor y)) (1 # 2)) as [E|E|E].
  - destruct (Z.even (Qfloor y)); [lia|].
    split; [lia|]. apply Hup. rewrite E. apply Qle_refl.
  - lia.
  - split; [lia|]. apply Hup. now apply Qlt_le_weak.
Qed.

Lemma round1_percent (q : Q) :
  (0 <= q)%Q -> (q <= 100)%Q ->
  exists q', round1 (Fin q) = Fin q' /\ (0 <= q')%Q /\ (q' <= 100)%Q.
Proof.
  intros H0 H100. simpl. eexists. split; [reflexivity|].
  destruct (rint_between (q * 10) 0 1000) as [Hlo Hhi].
  - change (inject_Z 0) with 0%Q. Lqa.lra.
  - change (inject_Z 1000) with 1000%Q. Lqa.lra.
  - revert Hlo Hhi. generalize (rint (q * 10)). intros r Hlo Hhi.
    unfold Qle, Qdiv, Qmult, Qinv, inject_Z. simpl. lia.
Qed.

Lemma scaled_percent (cap : Q) (v : fnum) :
  (0 < cap)%Q -> not_nan v ->
  exists q, round1 (fmul (fdiv (clip 0 cap v) (Fin cap)) (Fin 100)) = Fin q /\
            (0 <= q)%Q /\ (q <= 100)%Q.
Proof.
  intros Hcap Hv.
  assert (Hclip : exists c, clip 0 cap v = Fin c /\ (0 <= c)%Q /\ (c <= cap)%Q).
  { destruct v as [q| | |]; simpl.
    - eexists. split; [reflexivity|]. split.
      + apply Q.min_glb; [now apply Qlt_le_weak|apply Q.le_max_l].
      + apply Q.le_min_l.
    - eexists. split; [reflexivity|]. split; [now apply Qlt_le_weak|apply Qle_refl].
    - eexists. split; [reflexivity|]. split; [apply Qle_refl|now apply Qlt_le_weak].
    - discriminate Hv. }
  destruct Hclip as (c & -> & Hc0 & Hc1).
  unfold fdiv, qsign. rewrite (proj1 (Qgt_alt cap 0) Hcap).
  unfold fmul. apply round1_percent.
  - apply Qmult_le_0_compat; [|discriminate].
    apply Qle_shift_div_l; [exact Hcap|]. now rewrite Qmult_0_l.
  - setoid_replace (100 : Q) with (1 * 100)%Q at 2 by ring.
    apply Qmult_le_compat_r; [|discriminate].
    apply Qle_shift_div_r; [exact Hcap|]. now rewrite Qmult_1_l.
Qed.

(** X18: the K/D score and the ADR score of every value that is not
    NaN, infinite values included, are finite numbers between 0 and
    100; the headshot score is not clipped but stays between 0 and 100
    for a percentage in this range; the multi-kill score is at most
    100 and is 0 for a player without multi-kill entry. *)
Theorem component_scores_bounded :
  (forall v, not_nan v ->
     (exists q, _calculate_kd_score v = Fin q /\ (0 <= q)%Q /\ (q <= 100)%Q) /\
     (exists q, _calculate_adr_score v = Fin q /\ (0 <= q)%Q /\ (q <= 100)%Q)) /\
  (forall p, (0 <= p)%Q -> (p <= 100)%Q ->
     exists q, _calculate_hs_score (Fin p) = Fin q /\ (0 <= q)%Q /\ (q <= 100)%Q) /\
  (forall player multikills,
     (_calculate_multikill_score player multikills <= 100)%nat /\
     (lookup String.eqb player multikills = None ->
      _calculate_multikill_score player multikills = 0%nat)).
Proof.
  split; [|split].
  - intros v Hv. split.
    + apply (scaled_percent 3); [reflexivity|exact Hv].
    + apply (scaled_percent 150); [reflexivity|exact Hv].
  - intros p H0 H1. now apply round1_percent.
  - intros player multikills. unfold _calculate_multikill_score.
    destruct (lookup String.eqb player multikills); split;
      try lia; try discriminate; try reflexivity.
Qed.

Lemma fadd_nan_r (x : fnum) : fadd x NaN = NaN.
Proof. now destruct x. Qed.

Lemma overall_nan (kd hs ad : fnum) (mk : nat) :
  is_nan (overall_of (_calculate_kd_score kd) (_calculate_hs_score hs)
                     (_calculate_adr_score ad) (of_nat mk)) =
  is_nan kd || is_nan hs || is_nan ad.
Proof.
  destruct (is_nan kd) eqn:Ekd.
  { destruct kd; try discriminate. reflexivity. }
  destruct (scaled_percent 3 kd eq_refl Ekd) as (q1 & E1 & _).
  unfold _calculate_kd_score. rewrite E1.
  destruct (is_nan ad) eqn:Ead.
  { destruct ad; try discriminate. rewrite orb_true_r.
    unfold overall_of.
    change (fmul (_calculate_adr_score NaN) (Fin weight_adr)) with NaN.
    now rewrite fadd_nan_r. }
  destruct (scaled_percent 150 ad eq_refl Ead) as (q3 & E3 & _).
  unfold _calculate_adr_score. rewrite E3.
  destruct hs; reflexivity.
Qed.

Lemma existsb_overall (multikills : list (string * list MultiKill))
  (table : list PlayerStatLine) :
  existsb is_nan (map overall_rating (map (rate multikills) table)) =
  existsb (fun row => is_nan (kd_ratio row) || is_nan (hs_percentage row)
                      || is_nan (adr row)) table.
Proof.
  induction table as [|row table IH]; [reflexivity|].
  cbn [map existsb]. rewrite IH. f_equal. apply overall_nan.
Qed.

(** X19: the report raises exactly when some stat line has NaN as its
    K/D ratio, headshot percentage or ADR (infinite values do not make
    it raise).  A returned report has the lines of the input in their
    order, and every rank lies between 1 and the number of lines.  In
    both cases the calculator is left as it was. *)
Theorem report_raises_iff_nan {K : Type} (self : PlayerRatingCalculator K)
  (table : list PlayerStatLine) (multikills : list (string * list MultiKill)) :
  ((exists msg, fst (generate_rating_report self table multikills) = Raised msg)
   <-> Exists (fun row => is_nan (kd_ratio row) = true \/
                          is_nan (hs_percentage row) = true \/
                          is_nan (adr row) = true) table) /\
  (forall rows,
     fst (generate_rating_report self table multikills) = Returned rows ->
     map stats rows = table /\
     forall r, In r rows -> (1 <= rank r <= length table)%nat) /\
  snd (generate_rating_report self table multikills) = self.
Proof.
  unfold generate_rating_report. rewrite existsb_overall.
  split; [|split].
  - rewrite Exists_exists.
    destruct (existsb _ table) eqn:E; cbn [fst].
    + split; [|intros _; eexists; reflexivity].
      intros _. apply existsb_exists in E as (row & Hrow & Hnan).
      exists row. split; [exact Hrow|].
      apply orb_true_iff in Hnan as [Hnan|Hnan]; [|tauto].
      apply orb_true_iff in Hnan. tauto.
    + split; [intros (msg & H); discriminate|].
      intros (row & Hrow & Hnan). exfalso.
      assert (Ht : existsb (fun row => is_nan (kd_ratio row)
                     || is_nan (hs_percentage row) || is_nan (adr row)) table
                   = true).
      { apply existsb_exists. exists row. split; [exact Hrow|].
        destruct Hnan as [-> | [-> | ->]];
          rewrite ?orb_true_r; reflexivity. }
      congruence.
  - intros rows. destruct (existsb _ table) eqn:E; cbn [fst]; [discriminate|].
    intros H. injection H as <-.
    rewrite <- (existsb_overall multikills) in E. apply existsb_is_nan in E.
    split.
    + rewrite !map_map. cbn [stats set_rank rate]. apply map_id.
    + intros r Hr. apply in_map_iff in Hr as (x & <- & Hx).
      cbn [rank set_rank].
      replace (length table)
        with (length (map overall_rating (map (rate multikills) table)))
        by now rewrite !length_map.
      apply (dense_rank_le_length fcompare not_nan
               fcompare_antisym fcompare_trans fcompare_eq_l).
      * exact E.
      * now apply in_map.
  - now destruct (existsb _ table).
Qed.

Lemma total_rounds_positive (rounds : option (list RoundEndEvent)) :
  rounds <> Some [] -> (1 <= total_rounds_of rounds)%nat.
Proof.
  destruct rounds as [[|e rounds]|]; simpl; [congruence|lia|lia].
Qed.

Lemma overall_percent (q1 q2 q3 : Q) (mk : nat) :
  (0 <= q1)%Q -> (q1 <= 100)%Q -> (0 <= q2)%Q -> (q2 <= 100)%Q ->
  (0 <= q3)%Q -> (q3 <= 100)%Q -> (mk <= 100)%nat ->
  exists q, overall_of (Fin q1) (Fin q2) (Fin q3) (of_nat mk) = Fin q /\
            (0 <= q)%Q /\ (q <= 100)%Q.
Proof.
  intros. unfold overall_of, of_nat. cbn [fmul fadd].
  eexists. split; [reflexivity|].
  assert (Hm0 : (0 <= inject_Z (Z.of_nat mk))%Q) by apply inject_nat_nonneg.
  assert (Hm1 : (inject_Z (Z.of_nat mk) <= 100)%Q).
  { change 100%Q with (inject_Z 100). rewrite <- Zle_Qle. lia. }
  revert Hm0 Hm1. generalize (inject_Z (Z.of_nat mk)). intros m Hm0 Hm1.
  unfold weight_kd, weight_hs, weight_adr, weight_multikill.
  split; Lqa.lra.
Qed.

(** X20: unless the round table is present and empty, the report over
    the statistics table of the aggregator is returned, for every
    multi-kill dict; it has one line per line of the statistics table,
    and every overall rating is a finite number between 0 and 100. *)
Theorem report_of_statistics {K : Type} (self : PlayerRatingCalculator K)
  (kf : KillFrame) (dmg : list DamageEvent)
  (rounds : option (list RoundEndEvent))
  (multikills : list (string * list MultiKill)) :
  rounds <> Some [] ->
  exists rows,
    fst (generate_rating_report self (player_statistics kf dmg rounds)
           multikills) = Returned rows /\
    map stats rows = player_statistics kf dmg rounds /\
    forall r, In r rows ->
      exists q, overall_rating r = Fin q /\ (0 <= q)%Q /\ (q <= 100)%Q.
Proof.
  intros Hrounds. apply total_rounds_positive in Hrounds.
  assert (Hall : forall row, In row (player_statistics kf dmg rounds) ->
            exists q, overall_rating (rate multikills row) = Fin q /\
                      (0 <= q)%Q /\ (q <= 100)%Q).
  { intros row Hrow.
    apply stat_line_counts in Hrow as (Hk & Hh & _ & Hkd & Hhs & Hadr).
    cbn [overall_rating rate].
    destruct (kd_ratio_of_convention (kills row) (deaths row))
      as (_ & _ & (qk & Ek & _)).
    destruct (hs_percentage_of_range (headshots row) (kills row))
      as ((qh & Eh & Hh0 & Hh1) & _).
    { rewrite Hk, Hh. apply headshots_le_kills. }
    destruct (scaled_percent 3 (kd_ratio row)) as (q1 & E1 & H10 & H11);
      [reflexivity|now rewrite Hkd, Ek|].
    destruct (scaled_percent 150 (adr row)) as (q3 & E3 & H30 & H31);
      [reflexivity| |].
    { rewrite Hadr. unfold fdiv, of_Z, of_nat.
      now rewrite qsign_of_nat_pos by lia. }
    destruct (round1_percent qh Hh0 Hh1) as (q2 & E2 & H20 & H21).
    unfold _calculate_kd_score, _calculate_adr_score, _calculate_hs_score.
    rewrite E1, E3, Hhs, Eh, E2.
    apply overall_percent; auto.
    unfold _calculate_multikill_score.
    destruct (lookup String.eqb (player_name row) multikills); lia. }
  unfold generate_rating_report.
  destruct (existsb is_nan _) eqn:E.
  - exfalso. apply existsb_exists in E as (v & Hv & Hnan).
    apply in_map_iff in Hv as (r & <- & Hr).
    apply in_map_iff in Hr as (row & <- & Hrow).
    destruct (Hall row Hrow) as (q & Eq & _). rewrite Eq in Hnan. discriminate.
  - eexists. split; [reflexivity|]. split.
    + rewrite !map_map. cbn [stats set_rank rate]. apply map_id.
    + intros r Hr. apply in_map_iff in Hr as (x & <- & Hx).
      apply in_map_iff in Hx as (row & <- & Hrow).
      cbn [overall_rating set_rank]. now apply Hall.
Qed.

Lemma report_of_statistics_witness :
  Some scenario_rounds <> Some [] /\
  exists rows,
    fst (generate_rating_report (Rating.init tt default_base_rating)
           (player_statistics (frame scenario_kills) scenario_damages
                              (Some scenario_rounds))
           scenario_multi_kills) = Returned rows /\
    map stats rows = player_statistics (frame scenario_kills) scenario_damages
                       (Some scenario_rounds) /\
    forall r, In r rows ->
      exists q, overall_rating r = Fin q /\ (0 <= q)%Q /\ (q <= 100)%Q.
Proof.
  assert (H : Some scenario_rounds <> Some []) by (vm_compute; discriminate).
  split; [exact H|].
  exact (report_of_statistics (Rating.init tt default_base_rating)
           (frame scenario_kills) scenario_damages (Some scenario_rounds)
           scenario_multi_kills H).
Defined.

End ReportExtra.

(* ================================================================== *)
(** * The rank names of config.py *)
(* ================================================================== *)

Module ConfigExtra.
Import Parser Rating More.

Lemma fge_fin (q : Q) (t : Z) :
  fge (Fin q) t = true <-> (inject_Z t <= q)%Q.
Proof.
  unfold fge, fcompare, of_Z.
  destruct (Qcompare_spec q (inject_Z t)) as [E|E|E].
  - split; [intros _; rewrite E; apply Qle_refl|reflexivity].
  - split; [discriminate|].
    intros H. exfalso. exact (Qlt_not_le _ _ E H).
  - split; [intros _; now apply Qlt_le_weak|reflexivity].
Qed.

Lemma sorted_thresholds : sorted_reverse RANK_THRESHOLDS = RANK_THRESHOLDS.
Proof. reflexivity. Qed.

Lemma thresholds_descending :
  StronglySorted (fun a b : Z * string => fst b < fst a) RANK_THRESHOLDS.
Proof.
  unfold RANK_THRESHOLDS.
  repeat (constructor; [|repeat (constructor; [simpl; lia|]); constructor]).
  constructor.
Qed.

(** Over items in descending order the loop returns the name of the
    greatest threshold that the rating reaches. *)
Lemma first_rank_greatest (q : Q) (items : list (Z * string))
  (t : Z) (name : string) :
  StronglySorted (fun a b : Z * string => fst b < fst a) items ->
  In (t, name) items -> (inject_Z t <= q)%Q ->
  (forall t' name', In (t', name') items -> (inject_Z t' <= q)%Q -> t' <= t) ->
  first_rank (Fin q) items = name.
Proof.
  induction 1 as [|[t0 n0] items Hsorted IH Hhead]; intros Hin Hle Hmax.
  - destruct Hin.
  - cbn [first_rank]. destruct (fge (Fin q) t0) eqn:E.
    + apply fge_fin in E.
      destruct Hin as [Heq|Hin]; [congruence|].
      rewrite Forall_forall in Hhead. specialize (Hhead _ Hin). simpl in Hhead.
      specialize (Hmax t0 n0 (or_introl eq_refl) E). lia.
    + destruct Hin as [Heq|Hin].
      * injection Heq as -> ->. apply fge_fin in Hle. congruence.
      * apply IH; [exact Hin|exact Hle|].
        intros t' name' H'. apply (Hmax t' name'). now right.
Qed.

Lemma first_rank_below (q : Q) (items : list (Z * string)) :
  (forall t name, In (t, name) items -> (q < inject_Z t)%Q) ->
  first_rank (Fin q) items = "Silver"%string.
Proof.
  induction items as [|[t0 n0] items IH]; intros Hall; [reflexivity|].
  cbn [first_rank]. destruct (fge (Fin q) t0) eqn:E.
  - apply fge_fin in E. exfalso.
    exact (Qlt_not_le _ _ (Hall t0 n0 (or_introl eq_refl)) E).
  - apply IH. intros t name H. apply (Hall t name). now right.
Qed.

Lemma first_rank_listed (rating : fnum) (items : list (Z * string)) :
  first_rank rating items = "Silver"%string \/
  exists t, In (t, first_rank rating items) items.
Proof.
  induction items as [|[t0 n0] items IH]; [now left|].
  cbn [first_rank]. destruct (fge rating t0).
  - right. exists t0. now left.
  - destruct IH as [IH|(t & IH)]; [now left|].
    right. exists t. now right.
Qed.

(** X21: for a finite rating the rank name is the name of the greatest
    threshold of [RANK_THRESHOLDS] that the rating reaches; a negative
    rating, minus infinity and NaN get the name "Silver", plus infinity
    the name "Global Elite"; and every name returned is a name of the
    table. *)
Theorem rank_of_greatest_threshold :
  (forall (q : Q) (t : Z) (name : string),
     In (t, name) RANK_THRESHOLDS -> (inject_Z t <= q)%Q ->
     (forall t' name', In (t', name') RANK_THRESHOLDS ->
                       (inject_Z t' <= q)%Q -> t' <= t) ->
     get_rank_from_rating (Fin q) = name) /\
  (forall q : Q, (q < 0)%Q -> get_rank_from_rating (Fin q) = "Silver"%string) /\
  get_rank_from_rating NaN = "Silver"%string /\
  get_rank_from_rating NInf = "Silver"%string /\
  get_rank_from_rating PInf = "Global Elite"%string /\
  (forall rating, exists t, In (t, get_rank_from_rating rating) RANK_THRESHOLDS).
Proof.
  unfold get_rank_from_rating. rewrite sorted_thresholds.
  split; [|split; [|split; [|split; [|split]]]]; try reflexivity.
  - intros q t name. apply first_rank_greatest, thresholds_descending.
  - intros q Hq. apply first_rank_below. intros t name Hin.
    apply Qlt_le_trans with (y := 0%Q); [exact Hq|].
    change 0%Q with (inject_Z 0). rewrite <- Zle_Qle.
    unfold RANK_THRESHOLDS in Hin. simpl in Hin.
    repeat (destruct Hin as [Hin|Hin]; [injection Hin as <- _; lia|]).
    destruct Hin.
  - intros rating.
    destruct (first_rank_listed rating RANK_THRESHOLDS) as [E|H]; [|exact H].
    exists 0. rewrite E. unfold RANK_THRESHOLDS. simpl. tauto.
Qed.

End ConfigExtra.

(* ================================================================== *)
(** * Ratings straight from a parsed demo *)
(* ================================================================== *)

Module FromParserExtra.
Import Parser Rating Claims More StatsFacts StatsExtra EloExtra.
Local Open Scope R_scope.









End FromParserExtra.

(* ================================================================== *)
(** * The weapon table *)
(* ================================================================== *)

Section StringOrder.

Lemma ascii_compare_refl (a : ascii) : Ascii.compare a a = Eq.
Proof. unfold Ascii.compare. apply N.compare_refl. Qed.

Lemma ascii_compare_lt_trans (a b c : ascii) :
  Ascii.compare a b = Lt -> Ascii.compare b c = Lt -> Ascii.compare a c = Lt.
Proof.
  unfold Ascii.compare. rewrite !N.compare_lt_iff. apply N.lt_trans.
Qed.

Lemma string_compare_refl (a : string) : String.compare a a = Eq.
Proof.
  induction a as [|x a IH]; simpl; [reflexivity|].
  now rewrite ascii_compare_refl.
Qed.

Lemma string_compare_lt_trans (a : string) :
  forall b c, String.compare a b = Lt -> String.compare b c = Lt ->
              String.compare a c = Lt.
Proof.
  induction a as [|x a IH]; intros [|y b] [|z c]; simpl;
    try discriminate; try reflexivity.
  destruct (Ascii.compare x y) eqn:E1; try discriminate;
    destruct (Ascii.compare y z) eqn:E2; try discriminate.
  - apply Ascii.compare_eq_iff in E1, E2. subst.
    rewrite ascii_compare_refl. apply IH.
  - apply Ascii.compare_eq_iff in E1. subst. now rewrite E2.
  - apply Ascii.compare_eq_iff in E2. subst. now rewrite E1.
  - now rewrite (ascii_compare_lt_trans x y z E1 E2).
Qed.

End StringOrder.

Section FilterSums.
Context {A : Type}.

Lemma list_sum_filter_perm (f : A -> nat) (p : A -> bool) (l l' : list A) :
  Permutation l l' ->
  list_sum (map f (filter p l)) = list_sum (map f (filter p l')).
Proof.
  induction 1 as [|x l l' _ IH|x y l|l l' l'' _ IH1 _ IH2]; simpl.
  - reflexivity.
  - destruct (p x); simpl; now rewrite IH.
  - destruct (p x), (p y); simpl; lia.
  - now rewrite IH1.
Qed.

Lemma filter_implied (p q : A -> bool) (l : list A) :
  (forall a, p a = true -> q a = true) ->
  filter p (filter q l) = filter p l.
Proof.
  intros Himp. induction l as [|a l IH]; simpl; [reflexivity|].
  destruct (q a) eqn:Eq; simpl.
  - now rewrite IH.
  - destruct (p a) eqn:Ep; [|exact IH].
    apply Himp in Ep. congruence.
Qed.

Lemma key_column_all {K : Type} (key : A -> option K) (rows : list A) :
  (forall r, In r rows -> key r <> None) ->
  length (key_column key rows) = length rows.
Proof.
  unfold key_column. induction rows as [|r rows IH]; intros Hall;
    [reflexivity|].
  simpl. destruct (key r) eqn:E.
  - simpl. f_equal. apply IH. intros r' Hr'. apply Hall. now right.
  - exfalso. apply (Hall r); [now left|exact E].
Qed.
End FilterSums.

Module WeaponExtra.
Import Parser Claims Samples More MoreSamples StatsFacts.

Lemma weapon_pair_eqb_spec (a b : string * string) :
  reflect (a = b) (weapon_pair_eqb a b).
Proof.
  destruct a as [p w], b as [p' w']. unfold weapon_pair_eqb. simpl.
  destruct (String.eqb_spec p p') as [->|Hp]; simpl.
  - destruct (String.eqb_spec w w') as [->|Hw]; constructor; congruence.
  - constructor. congruence.
Qed.

Lemma group_attacker_weapon (rows : list KillEvent) (name w : string) :
  group weapon_pair_eqb attacker_weapon rows (name, w) =
  weapon_kills name w rows.
Proof.
  unfold group, weapon_kills. apply filter_ext. intros k.
  unfold attacker_weapon, name_is, weapon_pair_eqb.
  destruct (attacker_name k); reflexivity.
Qed.

Lemma weapon_line_leb_total (a b : WeaponStatLine) :
  weapon_line_leb a b = true \/ weapon_line_leb b a = true.
Proof.
  unfold weapon_line_leb.
  rewrite (String.compare_antisym (ws_player_name b) (ws_player_name a)).
  destruct (String.compare (ws_player_name a) (ws_player_name b)); simpl;
    auto.
  destruct (Nat.le_ge_cases (ws_kills b) (ws_kills a)) as [H|H];
    apply Nat.leb_le in H; auto.
Qed.

Lemma weapon_line_leb_trans (a b c : WeaponStatLine) :
  weapon_line_leb a b = true -> weapon_line_leb b c = true ->
  weapon_line_leb a c = true.
Proof.
  unfold weapon_line_leb.
  destruct (String.compare (ws_player_name a) (ws_player_name b)) eqn:E1;
    try discriminate;
    destruct (String.compare (ws_player_name b) (ws_player_name c)) eqn:E2;
    try discriminate.
  - apply String.compare_eq_iff in E1, E2. rewrite E1, E2.
    rewrite string_compare_refl, !Nat.leb_le. lia.
  - apply String.compare_eq_iff in E1. rewrite E1, E2. reflexivity.
  - apply String.compare_eq_iff in E2. rewrite <- E2, E1. reflexivity.
  - now rewrite (string_compare_lt_trans _ _ _ E1 E2).
Qed.

Lemma weapon_table_In (rows : list KillEvent) (l : WeaponStatLine) :
  In l (sort_values weapon_line_leb
          (map weapon_stat_line (weapon_stats rows))) <->
  exists name w,
    (1 <= length (weapon_kills name w rows))%nat /\
    l = weapon_stat_line
          ((name, w), (length (weapon_kills name w rows),
                       count_true headshot (weapon_kills name w rows))).
Proof.
  rewrite sort_values_In, in_map_iff. unfold weapon_stats, groupby. split.
  - intros (entry & <- & Hentry).
    apply in_map_iff in Hentry as ([name w] & <- & Hlabel).
    apply (group_labels_In weapon_pair_eqb weapon_pair_eqb_spec) in Hlabel.
    pose proof (group_nonempty weapon_pair_eqb weapon_pair_eqb_spec
                  attacker_weapon rows (name, w) Hlabel) as Hne.
    rewrite group_attacker_weapon in *.
    exists name, w. split; [|reflexivity].
    destruct (weapon_kills name w rows); [congruence|simpl; lia].
  - intros (name & w & Hlen & ->).
    eexists. split; [reflexivity|].
    apply in_map_iff. exists (name, w).
    rewrite group_attacker_weapon. split; [reflexivity|].
    apply (group_labels_In weapon_pair_eqb weapon_pair_eqb_spec).
    destruct (weapon_kills name w rows) as [|k g] eqn:Eg; [simpl in Hlen; lia|].
    apply key_column_In. exists k.
    assert (Hin : In k (group weapon_pair_eqb attacker_weapon rows (name, w)))
      by (rewrite group_attacker_weapon, Eg; now left).
    now apply (group_In weapon_pair_eqb weapon_pair_eqb_spec) in Hin.
Qed.

Lemma weapon_table_pairs (rows : list KillEvent) :
  Permutation
    (map (fun l => (ws_player_name l, ws_weapon l))
         (sort_values weapon_line_leb
            (map weapon_stat_line (weapon_stats rows))))
    (group_labels weapon_pair_eqb weapon_pair_leb attacker_weapon rows).
Proof.
  eapply Permutation_trans.
  - apply Permutation_map, sort_values_perm.
  - unfold weapon_stats, groupby. rewrite !map_map. cbn [weapon_stat_line
      ws_player_name ws_weapon fst snd].
    erewrite map_ext; [rewrite map_id; apply Permutation_refl|].
    now intros [name w].
Qed.

(** X23: the weapon table is empty without a kill table or without
    the weapon column.  Otherwise it has a line for exactly the pairs
    of a player and a weapon with at least one kill, one line per pair;
    the line carries the number of these kills and of the headshots
    among them, and a headshot percentage between 0 and 100; the lines
    are ordered by player name and, for one player, by falling number
    of kills. *)
Theorem weapon_table_lines (weapon_column : bool) (self : CS2DemoParser) :
  (df_kills self = None \/ weapon_column = false ->
   get_weapon_usage_stats weapon_column self = []) /\
  (forall kf, df_kills self = Some kf -> weapon_column = true ->
     forall name w,
       (1 <= length (weapon_kills name w (kill_rows kf)))%nat <->
       exists l, In l (get_weapon_usage_stats weapon_column self) /\
                 ws_player_name l = name /\ ws_weapon l = w) /\
  (forall kf, df_kills self = Some kf ->
     forall l, In l (get_weapon_usage_stats weapon_column self) ->
       ws_kills l = length (weapon_kills (ws_player_name l) (ws_weapon l)
                                         (kill_rows kf)) /\
       ws_headshots l =
         count_true headshot (weapon_kills (ws_player_name l) (ws_weapon l)
                                           (kill_rows kf)) /\
       (ws_headshots l <= ws_kills l)%nat /\
       exists q, ws_hs_percentage l = Fin q /\ (0 <= q)%Q /\ (q <= 100)%Q) /\
  NoDup (map (fun l => (ws_player_name l, ws_weapon l))
             (get_weapon_usage_stats weapon_column self)) /\
  StronglySorted (fun a b => weapon_line_leb a b = true)
                 (get_weapon_usage_stats weapon_column self).
Proof.
  unfold get_weapon_usage_stats.
  split; [|split; [|split; [|split]]].
  - intros [->| ->]; [reflexivity|]. now destruct (df_kills self).
  - intros kf -> -> name w. cbn [negb]. rewrite Nat.le_succ_l. split.
    + intros Hlen. eexists. split; [|split].
      * apply weapon_table_In. exists name, w. split; [lia|reflexivity].
      * reflexivity.
      * reflexivity.
    + intros (l & Hl & <- & <-).
      apply weapon_table_In in Hl as (name & w & Hlen & ->).
      cbn [weapon_stat_line ws_player_name ws_weapon fst snd]. lia.
  - intros kf -> l Hl. destruct weapon_column; [|destruct Hl].
    cbn [negb] in Hl. apply weapon_table_In in Hl as (name & w & Hlen & ->).
    cbn [weapon_stat_line ws_player_name ws_weapon ws_kills ws_headshots
         ws_hs_percentage fst snd].
    assert (Hhs : (count_true headshot (weapon_kills name w (kill_rows kf))
                   <= length (weapon_kills name w (kill_rows kf)))%nat)
      by apply filter_length_le.
    split; [reflexivity|]. split; [reflexivity|]. split; [exact Hhs|].
    apply hs_percentage_of_range, Hhs.
  - destruct (df_kills self) as [kf|]; [|constructor].
    destruct weapon_column; [|constructor]. cbn [negb].
    eapply Permutation_NoDup.
    + apply Permutation_sym, weapon_table_pairs.
    + apply (group_labels_NoDup weapon_pair_eqb weapon_pair_eqb_spec).
  - destruct (df_kills self) as [kf|]; [|constructor].
    destruct weapon_column; [|constructor]. cbn [negb].
    apply sort_values_sorted;
      [apply weapon_line_leb_total|apply weapon_line_leb_trans].
Qed.

Lemma weapon_lines_sum (rows : list KillEvent) (name : string)
  (labels : list (string * string)) :
  list_sum
    (map ws_kills
       (filter (fun l => String.eqb (ws_player_name l) name)
          (map weapon_stat_line
             (map (fun k => (k, (length (group weapon_pair_eqb attacker_weapon
                                           rows k),
                                 count_true headshot
                                   (group weapon_pair_eqb attacker_weapon
                                      rows k))))
                  labels)))) =
  list_sum
    (map (fun k => length (group weapon_pair_eqb attacker_weapon rows k))
         (filter (fun k => String.eqb (fst k) name) labels)).
Proof.
  induction labels as [|k labels IH]; [reflexivity|].
  simpl. destruct (String.eqb (fst k) name); simpl; [f_equal|]; exact IH.
Qed.

(** X24: in the weapon table the kills of the lines of one player add
    up to the number of kill rows with this player as attacker. *)
Theorem weapon_kills_add_up (self : CS2DemoParser) (kf : KillFrame)
  (name : string) :
  df_kills self = Some kf ->
  list_sum (map ws_kills
              (weapon_lines_of name (get_weapon_usage_stats true self))) =
  kills_by name (kill_rows kf).
Proof.
  intros Hkf. unfold get_weapon_usage_stats, weapon_lines_of. rewrite Hkf.
  cbn [negb]. clear Hkf.
  set (rows := kill_rows kf).
  rewrite (list_sum_filter_perm ws_kills _ _ _
             (sort_values_perm weapon_line_leb
                (map weapon_stat_line (weapon_stats rows)))).
  unfold weapon_stats, groupby. rewrite weapon_lines_sum.
  set (labels := group_labels weapon_pair_eqb weapon_pair_leb
                   attacker_weapon rows).
  set (mine := filter (fun k => name_is name (attacker_name k)) rows).
  set (ks := filter (fun k : string * string => String.eqb (fst k) name)
               labels).
  assert (Hsame : forall k, In k ks ->
            length (group weapon_pair_eqb attacker_weapon rows k) =
            length (group weapon_pair_eqb attacker_weapon mine k)).
  { intros [p w] Hk. apply filter_In in Hk as [_ Hp]. cbn [fst] in Hp.
    apply String.eqb_eq in Hp. subst p.
    unfold group, mine. rewrite filter_implied; [reflexivity|].
    intros r. unfold attacker_weapon, name_is, weapon_pair_eqb.
    destruct (attacker_name r); [|discriminate]. cbn [fst snd].
    intros H. now apply andb_true_iff in H as [H _]. }
  rewrite (map_ext_in _ _ ks Hsame).
  rewrite (group_sizes_add_up weapon_pair_eqb weapon_pair_eqb_spec
             attacker_weapon mine ks).
  - unfold kills_by, count_true. fold mine. apply key_column_all.
    intros r Hr. apply filter_In in Hr as [_ Hr].
    unfold attacker_weapon, name_is in *.
    destruct (attacker_name r); [discriminate|discriminate].
  - apply NoDup_filter,
      (group_labels_NoDup weapon_pair_eqb weapon_pair_eqb_spec).
  - intros k Hk. apply key_column_In in Hk as (r & Hr & Ekey).
    apply filter_In in Hr as [Hr Hname]. apply filter_In. split.
    + apply (group_labels_In weapon_pair_eqb weapon_pair_eqb_spec).
      apply key_column_In. now exists r.
    + unfold attacker_weapon, name_is in *.
      destruct (attacker_name r); [|discriminate].
      injection Ekey as <-. exact Hname.
Qed.

Lemma weapon_kills_add_up_witness :
  df_kills (parsed scenario_kills scenario_damages scenario_rounds []) =
    Some {| kill_rows := scenario_assigned;
            has_round := true; has_assister := true |} /\
  list_sum (map ws_kills
              (weapon_lines_of "A"
                 (get_weapon_usage_stats true
                    (parsed scenario_kills scenario_damages
                            scenario_rounds [])))) =
  kills_by "A" scenario_assigned.
Proof.
  assert (Hk : df_kills (parsed scenario_kills scenario_damages
                                scenario_rounds [])
               = Some {| kill_rows := scenario_assigned;
                         has_round := true; has_assister := true |})
    by reflexivity.
  split; [exact Hk|].
  exact (weapon_kills_add_up _ _ "A"%string Hk).
Defined.

End WeaponExtra.
